(** * Enexor BioCO2 financial model: the engine of [App.jsx]

    A shallow embedding of [runFinancialModel] and [runSensitivity], as they
    stand in src/src/App.jsx and in the copy src/unnamed/part_000, and the
    properties the specification states about them.

    Numbers.  A JavaScript number is modelled as an exact rational ([Q]):
    the arithmetic of the engine is the arithmetic of its formulas, without
    rounding, overflow, NaN or infinities.  A quotient by 0, which
    JavaScript answers with an infinity or NaN, has the value 0 of [Qdiv];
    no statement below depends on the value of such a quotient.
    [Math.pow] and [Math.log] are built-ins of the host, not code of the
    repository: the engine is parameterised over them, and a theorem that
    relies on a law of a built-in states it as a hypothesis. *)

From Stdlib Require Import QArith Qround Qabs Qminmax Qpower.
From Stdlib Require Import ZArith List Bool Lia Lqa String.
From Stdlib Require Import Permutation Sorted.
Import ListNotations.
Open Scope Q_scope.

(** ** Number primitives *)

(** [a > b], [a < b], [a >= b], [a <= b] and [a === b] on numbers. *)
Definition gtb (a b : Q) : bool := negb (Qle_bool a b).
Definition ltb (a b : Q) : bool := negb (Qle_bool b a).
Definition geb (a b : Q) : bool := Qle_bool b a.
Definition leb (a b : Q) : bool := Qle_bool a b.
Definition eqb (a b : Q) : bool := Qeq_bool a b.

Definition Math_floor (x : Q) : Q := inject_Z (Qfloor x).
Definition Math_min (a b : Q) : Q := Qmin a b.
Definition Math_max (a b : Q) : Q := Qmax a b.
Definition Math_abs (x : Q) : Q := Qabs x.

(** [arr[i] || 0]: the element at index [i] when [i] is an integer within
    the array, and 0 when the lookup is [undefined] (a fractional, negative
    or out-of-range index) or the element is itself 0. *)
Definition elem_or_0 (arr : list Q) (i : Q) : Q :=
  if eqb i (Math_floor i) && (0 <=? Qfloor i)%Z
  then nth (Z.to_nat (Qfloor i)) arr 0
  else 0.

(** ** Counting loops

    [for (let n = start; cond(n); n++) acc = body(n, acc)].  The counter is a
    number, as in the source; [fuel] bounds the number of iterations. *)
Fixpoint for_loop {A : Type} (fuel : nat) (cond : Q -> bool) (n : Q)
    (body : Q -> A -> A) (acc : A) : A :=
  match fuel with
  | O => acc
  | S fuel' =>
      if cond n then for_loop fuel' cond (n + 1) body (body n acc) else acc
  end.

(** Number of iterations of [for (n = start; n <= bound; n++)]. *)
Definition trips_le (start bound : Q) : nat :=
  Z.to_nat (Qfloor (bound - start) + 1).

(** Number of iterations of [for (n = start; n < bound; n++)]. *)
Definition trips_lt (start bound : Q) : nat :=
  Z.to_nat (Qceiling (bound - start)).

(** The two loops, run with one unit of fuel more than they need: they leave
    through their test (see [for_le_exits] and [for_lt_exits]). *)
Definition for_le {A : Type} (start bound : Q) (body : Q -> A -> A) (acc : A) : A :=
  for_loop (S (trips_le start bound)) (fun n => leb n bound) start body acc.

Definition for_lt {A : Type} (start bound : Q) (body : Q -> A -> A) (acc : A) : A :=
  for_loop (S (trips_lt start bound)) (fun n => ltb n bound) start body acc.

(** ** Data model *)

(** The two copies of the engine in the repository. *)
Inductive source_file : Type :=
| App_jsx     (* src/src/App.jsx: eligibility threshold and greenhouse pathway *)
| part_000.   (* src/unnamed/part_000: unconditional eligibility, no greenhouse *)

(** The numeric keys of the [inputs] object. *)
Inductive key : Type :=
| CO2_tpd | f_avail | E_spec | W_total
| CR_45Q | f_45Q | T_45Q | Y_45Q_infl | r_CPI | Q_thresh_45Q
| P_VCM | f_VCM | r_VCM
| P_offtake | f_offtake | r_offtake
| P_comply | f_comply
| f_greenhouse | P_greenhouse
| C_vessels | C_adsorbent | C_HX | C_blower | C_valves
| C_compressor | C_pretreat | C_controls | C_electrical | C_piping | C_container
| f_install | f_engineering
| P_elec | T_ads_life | C_valve_maint | C_cal | f_insurance | C_monitor | f_maint | r_OPEX
| r_disc | T_project | Y_start | r_rev
| N_units | LR | units_per_year.

Definition key_eq_dec (a b : key) : {a = b} + {a <> b}.
Proof. decide equality. Defined.

(** [inputs]: a flat object, one number per key and the boolean toggle
    [gh_45Q_eligible]. *)
Record ModelInputs : Type := mkInputs {
  field : key -> Q;
  gh_45Q_eligible : bool
}.

(** [{ ...inputs, [k]: v }] *)
Definition set_field (inputs : ModelInputs) (k : key) (v : Q) : ModelInputs :=
  {| field := fun k' => if key_eq_dec k k' then v else field inputs k';
     gh_45Q_eligible := gh_45Q_eligible inputs |}.

(** One entry of [years] (the source reads it as [yr.CF], [yr.y], ...). *)
Record YearRecord : Type := mkYear {
  yr_year : Q;
  yr_y : Q;
  yr_N_deployed : Q;
  yr_CO2_fleet : Q;
  yr_is_45Q_eligible : bool;
  yr_R_45Q : Q;
  yr_R_VCM : Q;
  yr_R_offtake : Q;
  yr_R_comply : Q;
  yr_R_total : Q;
  yr_OPEX : Q;
  yr_capex_year : Q;
  yr_CF : Q;
  yr_DCF : Q;
  yr_cumulative_dcf : Q;
  yr_R_per_ton : Q;
  yr_OPEX_per_ton : Q
}.

(** The variables the year loop carries from one iteration to the next. *)
Record SimState : Type := mkSim {
  st_years : list YearRecord;
  st_cumulative_dcf : Q;
  st_payback_disc : option Q;
  st_payback_simple : option Q;
  st_cumulative_cf_undiscounted : Q
}.

(** The warning messages, by kind; the numbers are those the message
    interpolates. *)
Inductive warning : Type :=
| Warn_threshold (Q_thresh max_fleet : Q)
| Warn_allocation
| Warn_negative_NPV (rate : Q).

(** The object [runFinancialModel] returns.  [null] is [None]. *)
Record ModelResult : Type := mkResult {
  res_CO2_tpy : Q;
  res_CO2_fleet_yr1 : Q;
  res_CAPEX_unit1 : Q;
  res_capex_fleet_total : Q;
  res_unit_capex : list Q;
  res_NPV : Q;
  res_IRR : option Q;
  res_payback_disc : option Q;
  res_payback_simple : option Q;
  res_LCCC : Q;
  res_CR_breakeven : option Q;
  res_R_per_ton_45Q : Q;
  res_R_per_ton_VCM : Q;
  res_R_per_ton_offtake : Q;
  res_R_per_ton_comply : Q;
  res_years : list YearRecord;
  res_warnings : list warning;
  res_threshold_year : option Q;   (* App.jsx only; absent in part_000 *)
  res_yr1_revenue : Q;
  res_yr1_opex : Q
}.

(** The bracket a bisection loop ends with, and the number of loop bodies
    it ran. *)
Record Bracket : Type := mkBracket {
  br_lo : Q;
  br_hi : Q;
  br_iter : nat
}.

(** ** The engine: [runFinancialModel] *)

Section Engine.

(** The host's [Math.pow] and [Math.log]. *)
Variable Math_pow : Q -> Q -> Q.
Variable Math_log : Q -> Q.

(** Which copy of the engine, and its argument. *)
Variable src : source_file.
Variable inputs : ModelInputs.

Local Notation "$ k" := (field inputs k) (at level 1, k at level 0, format "$ k").

(** Annual CO2 of one unit. *)
Definition CO2_tpy : Q := $CO2_tpd * 365 * $f_avail.

(** Single unit CAPEX. *)
Definition C_equipment : Q :=
  $C_vessels + $C_adsorbent + $C_HX + $C_blower + $C_valves
  + $C_compressor + $C_pretreat + $C_controls + $C_electrical + $C_piping + $C_container.

Definition CAPEX_unit1 : Q := C_equipment * (1 + $f_install + $f_engineering).

(** Fleet CAPEX with learning curve: the loop
    [for (let n = 1; n <= N_units; n++)] carries [unit_capex] and
    [capex_fleet_total]. *)
Definition lr_exp : Q := Math_log $LR / Math_log 2.

Definition capex_loop : list Q * Q :=
  for_le 1 $N_units
    (fun n acc =>
       let c := CAPEX_unit1 * Math_pow n lr_exp in
       (fst acc ++ [c], snd acc + c))
    ([], 0).

Definition unit_capex : list Q := fst capex_loop.
Definition capex_fleet_total : Q := snd capex_loop.

(** *** One iteration of the year loop *)

Section Year.

Variable y : Q.

Definition year : Q := $Y_start + y.

(** Fleet size *)
Definition N_deployed : Q :=
  Math_min $N_units (Math_floor (y * $units_per_year) + 1).

Definition N_prev : Q :=
  if eqb y 0 then 0
  else Math_min $N_units (Math_floor ((y - 1) * $units_per_year) + 1).

Definition CO2_fleet : Q := N_deployed * CO2_tpy.

Definition is_45Q_eligible : bool :=
  match src with
  | App_jsx => geb CO2_fleet $Q_thresh_45Q
  | part_000 => true
  end.

(** CAPEX this year *)
Definition capex_year : Q :=
  for_le (N_prev + 1) N_deployed
    (fun n acc => acc + elem_or_0 unit_capex (n - 1)) 0.

(** Cumulative CAPEX deployed *)
Definition capex_cum : Q :=
  for_lt 0 N_deployed (fun n acc => acc + elem_or_0 unit_capex n) 0.

(** Revenue *)
Definition escalation_rev : Q := Math_pow (1 + $r_rev / 100) y.

(** 45Q: the effective credit rate [cr] of the year. *)
Definition cr : Q :=
  if geb year $Y_45Q_infl
  then $CR_45Q * Math_pow (1 + $r_CPI / 100) (year - $Y_45Q_infl)
  else $CR_45Q.

Definition R_45Q : Q :=
  match src with
  | App_jsx =>
      if gtb $f_45Q 0 && leb y $T_45Q && is_45Q_eligible then
        let CO2_non_gh := CO2_fleet * $f_45Q * (1 - $f_greenhouse) in
        let CO2_gh := CO2_fleet * $f_greenhouse in
        if gh_45Q_eligible inputs
        then (CO2_non_gh + CO2_gh) * cr
        else CO2_non_gh * cr
      else 0
  | part_000 =>
      if gtb $f_45Q 0 && leb y $T_45Q then CO2_fleet * $f_45Q * cr else 0
  end.

(** VCM *)
Definition P_VCM_y : Q := $P_VCM * Math_pow (1 + $r_VCM / 100) y.
Definition R_VCM : Q := CO2_fleet * $f_VCM * P_VCM_y.

(** Offtake (split greenhouse in App.jsx) *)
Definition P_offtake_y : Q := $P_offtake * Math_pow (1 + $r_offtake / 100) y.
Definition P_gh_y : Q := $P_greenhouse * Math_pow (1 + $r_offtake / 100) y.
Definition R_offtake_non_gh : Q :=
  CO2_fleet * Math_max 0 ($f_offtake - $f_greenhouse) * P_offtake_y.
Definition R_offtake_gh : Q := CO2_fleet * $f_greenhouse * P_gh_y.

Definition R_offtake : Q :=
  match src with
  | App_jsx => R_offtake_non_gh + R_offtake_gh
  | part_000 => CO2_fleet * $f_offtake * P_offtake_y
  end.

(** Compliance *)
Definition R_comply : Q := CO2_fleet * $f_comply * $P_comply * escalation_rev.

Definition R_total : Q := R_45Q + R_VCM + R_offtake + R_comply.

(** OPEX *)
Definition opex_escalation : Q := Math_pow (1 + $r_OPEX / 100) y.
Definition C_elec : Q := N_deployed * $W_total * 8760 * $f_avail * $P_elec.
Definition C_ads_replace : Q := N_deployed * $C_adsorbent / $T_ads_life.
Definition C_fixed : Q := N_deployed * ($C_valve_maint + $C_cal + $C_monitor).
Definition C_insure : Q := capex_cum * $f_insurance / 100.
Definition C_gen_maint : Q := capex_cum * $f_maint / 100.
Definition OPEX : Q :=
  (C_elec + C_ads_replace + C_fixed + C_insure + C_gen_maint) * opex_escalation.

(** Cash flow *)
Definition CF : Q := R_total - OPEX - capex_year.
Definition discount_factor : Q := Math_pow (1 + $r_disc / 100) y.
Definition DCF : Q := CF / discount_factor.

(** The object [years.push({ ... })] appends, given the running
    [cumulative_dcf]. *)
Definition year_record (cumulative_dcf : Q) : YearRecord :=
  {| yr_year := year; yr_y := y; yr_N_deployed := N_deployed;
     yr_CO2_fleet := CO2_fleet; yr_is_45Q_eligible := is_45Q_eligible;
     yr_R_45Q := R_45Q; yr_R_VCM := R_VCM; yr_R_offtake := R_offtake;
     yr_R_comply := R_comply; yr_R_total := R_total;
     yr_OPEX := OPEX; yr_capex_year := capex_year; yr_CF := CF;
     yr_DCF := DCF; yr_cumulative_dcf := cumulative_dcf;
     yr_R_per_ton := if gtb CO2_fleet 0 then R_total / CO2_fleet else 0;
     yr_OPEX_per_ton := if gtb CO2_fleet 0 then OPEX / CO2_fleet else 0 |}.

(** The body of [for (let y = 0; y <= T_project; y++)]. *)
Definition year_step (st : SimState) : SimState :=
  let cumulative_dcf := st_cumulative_dcf st + DCF in
  let cumulative_cf_undiscounted := st_cumulative_cf_undiscounted st + CF in
  let payback_disc :=
    match st_payback_disc st with
    | None => if geb cumulative_dcf 0 && gtb y 0 then Some y else None
    | Some p => Some p
    end in
  let payback_simple :=
    match st_payback_simple st with
    | None => if geb cumulative_cf_undiscounted 0 && gtb y 0 then Some y else None
    | Some p => Some p
    end in
  {| st_years := st_years st ++ [year_record cumulative_dcf];
     st_cumulative_dcf := cumulative_dcf;
     st_payback_disc := payback_disc;
     st_payback_simple := payback_simple;
     st_cumulative_cf_undiscounted := cumulative_cf_undiscounted |}.

End Year.

(** *** Year-by-year simulation *)

Definition sim_init : SimState :=
  {| st_years := []; st_cumulative_dcf := 0; st_payback_disc := None;
     st_payback_simple := None; st_cumulative_cf_undiscounted := 0 |}.

Definition simulation : SimState := for_le 0 $T_project year_step sim_init.

Definition years : list YearRecord := st_years simulation.

(** NPV *)
Definition NPV : Q := st_cumulative_dcf simulation.

(** *** IRR: bisection *)

(** [npv_test] of the IRR loop at rate [mid]. *)
Definition irr_npv_test (mid : Q) : Q :=
  fold_left (fun npv_test yr => npv_test + yr_CF yr / Math_pow (1 + mid) (yr_y yr))
            years 0.

(** [for (let iter = 0; iter < 100; iter++) { ...; if (...) break; }]:
    [remaining] is [100 - iter]. *)
Fixpoint irr_loop (remaining : nat) (iter : nat) (lo hi : Q) : Bracket :=
  match remaining with
  | O => mkBracket lo hi iter
  | S remaining' =>
      let mid := (lo + hi) / 2 in
      let npv_test := irr_npv_test mid in
      let lo' := if gtb npv_test 0 then mid else lo in
      let hi' := if gtb npv_test 0 then hi else mid in
      if ltb (Math_abs (hi' - lo')) 0.0001
      then mkBracket lo' hi' (S iter)
      else irr_loop remaining' (S iter) lo' hi'
  end.

Definition irr_bracket : Bracket := irr_loop 100 0 (-0.5) 2.0.

Definition IRR : option Q :=
  let lo := br_lo irr_bracket in
  let hi := br_hi irr_bracket in
  if gtb (Math_abs (lo - (-0.5))) 0.01 && gtb (Math_abs (hi - 2.0)) 0.01
  then Some ((lo + hi) / 2)
  else None.

(** *** LCCC *)

Definition r : Q := $r_disc / 100.
Definition N : Q := $T_project.
Definition CRF : Q :=
  if gtb r 0
  then (r * Math_pow (1 + r) N) / (Math_pow (1 + r) N - 1)
  else 1 / N.
Definition CAPEX_annual : Q := capex_fleet_total * CRF.
Definition avg_OPEX : Q :=
  fold_left (fun s yr => s + yr_OPEX yr) years 0
  / inject_Z (Z.of_nat (List.length years)).
Definition LCCC : Q :=
  if gtb CO2_tpy 0 && gtb $N_units 0
  then (CAPEX_annual + avg_OPEX) / ($N_units * CO2_tpy)
  else 0.

(** *** Breakeven credit price: bisection *)

(** [npv_test] of the breakeven loop at credit price [mid]. *)
Definition breakeven_npv_test (mid : Q) : Q :=
  fold_left
    (fun npv_test yr =>
       let R_45Q_test :=
         if match src with
            | App_jsx => yr_is_45Q_eligible yr && leb (yr_y yr) $T_45Q
            | part_000 => leb (yr_y yr) $T_45Q
            end
         then yr_CO2_fleet yr * $f_45Q * mid else 0 in
       let R_other := yr_R_VCM yr + yr_R_offtake yr + yr_R_comply yr in
       let cf := R_45Q_test + R_other - yr_OPEX yr - yr_capex_year yr in
       npv_test + cf / Math_pow (1 + r) (yr_y yr))
    years 0.

(** [for (let iter = 0; iter < 80; iter++) { ...; if (...) break; }] *)
Fixpoint breakeven_loop (remaining : nat) (iter : nat) (b_lo b_hi : Q) : Bracket :=
  match remaining with
  | O => mkBracket b_lo b_hi iter
  | S remaining' =>
      let mid := (b_lo + b_hi) / 2 in
      let npv_test := breakeven_npv_test mid in
      let b_lo' := if ltb npv_test 0 then mid else b_lo in
      let b_hi' := if ltb npv_test 0 then b_hi else mid in
      if ltb (Math_abs (b_hi' - b_lo')) 0.5
      then mkBracket b_lo' b_hi' (S iter)
      else breakeven_loop remaining' (S iter) b_lo' b_hi'
  end.

Definition breakeven_bracket : Bracket := breakeven_loop 80 0 0 300.

Definition CR_breakeven : option Q :=
  Some ((br_lo breakeven_bracket + br_hi breakeven_bracket) / 2).

(** *** Year-1 summary, warnings and the result *)

(** [years[1] || years[0]]; [None] is [undefined]. *)
Definition yr1 : option YearRecord :=
  match nth_error years 1 with
  | Some yr => Some yr
  | None => nth_error years 0
  end.

(** Threshold crossing year (App.jsx). *)
Definition threshold_year : option Q :=
  match src with
  | App_jsx => option_map yr_year (find yr_is_45Q_eligible years)
  | part_000 => None
  end.

Definition warnings : list warning :=
  (match src with
   | App_jsx =>
       if gtb $f_45Q 0 && negb (existsb yr_is_45Q_eligible years)
       then [Warn_threshold $Q_thresh_45Q ($N_units * CO2_tpy)] else []
   | part_000 => []
   end)
  ++ (if gtb ($f_45Q + $f_VCM + $f_offtake + $f_comply) 1.01
      then [Warn_allocation] else [])
  ++ (if ltb NPV 0 then [Warn_negative_NPV $r_disc] else []).

(** [runFinancialModel(inputs)].  [None]: the call throws, which it does when
    [years] is empty and [yr1.CO2_fleet] reads a property of [undefined]. *)
Definition runFinancialModel : option ModelResult :=
  match yr1 with
  | None => None
  | Some yr1 =>
      let per_ton (x : Q) :=
        if gtb (yr_CO2_fleet yr1) 0 then x / yr_CO2_fleet yr1 else 0 in
      Some
        {| res_CO2_tpy := CO2_tpy;
           res_CO2_fleet_yr1 := yr_CO2_fleet yr1;
           res_CAPEX_unit1 := CAPEX_unit1;
           res_capex_fleet_total := capex_fleet_total;
           res_unit_capex := unit_capex;
           res_NPV := NPV;
           res_IRR := IRR;
           res_payback_disc := st_payback_disc simulation;
           res_payback_simple := st_payback_simple simulation;
           res_LCCC := LCCC;
           res_CR_breakeven := CR_breakeven;
           res_R_per_ton_45Q := per_ton (yr_R_45Q yr1);
           res_R_per_ton_VCM := per_ton (yr_R_VCM yr1);
           res_R_per_ton_offtake := per_ton (yr_R_offtake yr1);
           res_R_per_ton_comply := per_ton (yr_R_comply yr1);
           res_years := years;
           res_warnings := warnings;
           res_threshold_year := threshold_year;
           res_yr1_revenue := yr_R_total yr1;
           res_yr1_opex := yr_OPEX yr1 |}
  end.

End Engine.

(** ** The sensitivity sweep: [runSensitivity] *)

Record SensitivityParam : Type := mkParam {
  p_key : key;
  p_label : string;
  p_unit : string
}.

Record SensitivityEntry : Type := mkEntry {
  se_key : key;
  se_label : string;
  se_unit : string;
  se_npv_lo : Q;
  se_npv_hi : Q;
  se_delta : Q;
  se_base_val : Q
}.

Definition params : list SensitivityParam :=
  [ mkParam CR_45Q "45Q Credit Rate" "$/ton";
    mkParam CO2_tpd "CO₂ Capture Rate" "t/day";
    mkParam f_avail "Availability" EmptyString;
    mkParam P_offtake "Offtake Price" "$/ton";
    mkParam P_elec "Electricity Rate" "$/kWh";
    mkParam r_disc "Discount Rate" "%";
    mkParam N_units "Fleet Size" "units";
    mkParam T_ads_life "Adsorbent Life" "years" ].

(** [Array.prototype.sort(compareFn)]: a stable sort; [a] stays before [b]
    unless [compareFn(a, b) > 0]. *)
Section ArraySort.

Context {A : Type} (compareFn : A -> A -> Q).

Fixpoint sort_insert (a : A) (l : list A) : list A :=
  match l with
  | [] => [a]
  | b :: l' => if gtb (compareFn a b) 0 then b :: sort_insert a l' else a :: l
  end.

Fixpoint Array_sort (l : list A) : list A :=
  match l with
  | [] => []
  | a :: l' => sort_insert a (Array_sort l')
  end.

End ArraySort.

Section Sensitivity.

Variable Math_pow : Q -> Q -> Q.
Variable Math_log : Q -> Q.
Variable src : source_file.

(** [try { npv = runFinancialModel(inputs).NPV; } catch { npv = baseNPV; }] *)
Definition npv_or (baseNPV : Q) (inputs : ModelInputs) : Q :=
  match runFinancialModel Math_pow Math_log src inputs with
  | Some res => res_NPV res
  | None => baseNPV
  end.

(** The entry [params.map] builds for the parameter [p]. *)
Definition sensitivity_entry (baseInputs : ModelInputs) (baseNPV : Q)
    (p : SensitivityParam) : SensitivityEntry :=
  let lo_inputs := set_field baseInputs (p_key p) (field baseInputs (p_key p) * 0.8) in
  let hi_inputs := set_field baseInputs (p_key p) (field baseInputs (p_key p) * 1.2) in
  let npv_lo := npv_or baseNPV lo_inputs in
  let npv_hi := npv_or baseNPV hi_inputs in
  {| se_key := p_key p; se_label := p_label p; se_unit := p_unit p;
     se_npv_lo := npv_lo; se_npv_hi := npv_hi;
     se_delta := Math_abs (npv_hi - npv_lo);
     se_base_val := field baseInputs (p_key p) |}.

Definition runSensitivity (baseInputs : ModelInputs) (baseNPV : Q)
    : list SensitivityEntry :=
  Array_sort (fun a b => se_delta b - se_delta a)
             (map (sensitivity_entry baseInputs baseNPV) params).

End Sensitivity.

(** ** Running the engine

    An executable stand-in for the two built-ins on rationals, to run the
    engine on concrete inputs.  [pow_ref] is exact at integral exponents
    (where the power of a rational is a rational) and interpolates linearly
    between two consecutive ones; [log_ref] is a rational approximation of
    the natural logarithm, exact at 1.  The theorems hold for every
    [Math_pow] and [Math_log]; the concrete runs below depend on the
    stand-ins at the exponents 0 and 1 and at the base 1 only, where they
    are exact. *)
Definition pow_ref (b e : Q) : Q :=
  let k := Qfloor e in
  Qpower b k * (1 + (e - inject_Z k) * (b - 1)).

Definition log_ref (x : Q) : Q :=
  let z := (x - 1) / (x + 1) in
  2 * z * (1 + z * z / 3 + z * z * z * z / 5).

(** The inputs the application starts with ([useState] in [FinancialApp]). *)
Definition default_inputs : ModelInputs :=
  {| field := fun k =>
       match k with
       | CO2_tpd => 3.5 | f_avail => 0.90 | E_spec => 1200 | W_total => 65
       | CR_45Q => 85 | f_45Q => 0.5 | T_45Q => 12 | Y_45Q_infl => 2027
       | r_CPI => 2.5 | Q_thresh_45Q => 12500
       | P_VCM => 40 | f_VCM => 0.0 | r_VCM => 3.0
       | P_offtake => 70 | f_offtake => 0.5 | r_offtake => 2.0
       | P_comply => 0 | f_comply => 0.0
       | f_greenhouse => 0.0 | P_greenhouse => 70
       | C_vessels => 60000 | C_adsorbent => 20000 | C_HX => 20000
       | C_blower => 15000 | C_valves => 35000 | C_compressor => 5000
       | C_pretreat => 15000 | C_controls => 25000 | C_electrical => 12000
       | C_piping => 18000 | C_container => 12000
       | f_install => 0.20 | f_engineering => 0.15
       | P_elec => 0.08 | T_ads_life => 7 | C_valve_maint => 5000
       | C_cal => 5000 | f_insurance => 1.5 | C_monitor => 3000
       | f_maint => 3.0 | r_OPEX => 2.0
       | r_disc => 10 | T_project => 20 | Y_start => 2026 | r_rev => 2.0
       | N_units => 4 | LR => 0.85 | units_per_year => 2
       end;
     gh_45Q_eligible := false |}.

(** ** Vocabulary of the statements *)

(** The values the counter of a loop takes: [start], [start + 1], ... *)
Fixpoint count_from (start : Q) (k : nat) : list Q :=
  match k with
  | O => []
  | S k' => start :: count_from (start + 1) k'
  end.

(** The records the year loop appends over the counter values [l], from the
    running sum [cum]. *)
Fixpoint records (Math_pow : Q -> Q -> Q) (Math_log : Q -> Q)
    (src : source_file) (inputs : ModelInputs) (l : list Q) (cum : Q)
    : list YearRecord :=
  match l with
  | [] => []
  | y :: l' =>
      let cum' := cum + DCF Math_pow Math_log src inputs y in
      year_record Math_pow Math_log src inputs y cum'
      :: records Math_pow Math_log src inputs l' cum'
  end.

(** The year-1 summary fields of [res] are those of the record [yr]. *)
Definition summary_from (res : ModelResult) (yr : YearRecord) : Prop :=
  let per_ton (x : Q) := if gtb (yr_CO2_fleet yr) 0 then x / yr_CO2_fleet yr else 0 in
  res_CO2_fleet_yr1 res = yr_CO2_fleet yr /\
  res_R_per_ton_45Q res = per_ton (yr_R_45Q yr) /\
  res_R_per_ton_VCM res = per_ton (yr_R_VCM yr) /\
  res_R_per_ton_offtake res = per_ton (yr_R_offtake yr) /\
  res_R_per_ton_comply res = per_ton (yr_R_comply yr) /\
  res_yr1_revenue res = yr_R_total yr /\
  res_yr1_opex res = yr_OPEX yr.


Definition pow_ge_one_law (Math_pow : Q -> Q -> Q) : Prop :=
  forall b e : Q, 1 <= b -> 0 <= e -> 1 <= Math_pow b e.

(** ** Concrete inputs *)

(** The default inputs with the 45Q and offtake allocations set to 0 (the
    VCM and compliance allocations are 0 already) and half of the CO2 sent
    to the greenhouse. *)
Definition greenhouse_only_inputs : ModelInputs :=
  set_field (set_field (set_field default_inputs f_45Q 0) f_offtake 0)
            f_greenhouse 0.5.

(** The default inputs with a negative base credit rate. *)
Definition negative_rate_inputs : ModelInputs :=
  set_field default_inputs CR_45Q (-85).

(** The default inputs with a capture rate of 0: no fleet output. *)
Definition no_capture_inputs : ModelInputs :=
  set_field default_inputs CO2_tpd 0.

(** The default inputs over a horizon of 0 years (the year [y = 0] only). *)
Definition horizon_0_inputs : ModelInputs :=
  set_field default_inputs T_project 0.

(** ** The application around the engine ([FinancialApp])

    The state of the component is the scenario name and the inputs; the
    derived values below are the ones [useMemo] and the chart code compute
    from them. *)

(** [handleBlur] of [SliderInput].  [parsed] is [parseFloat(editVal)],
    [None] when that is NaN; the result is the value [onChange] is called
    with, [None] when it is not called. *)
Definition handleBlur (min max : Q) (parsed : option Q) : option Q :=
  match parsed with
  | Some v => Some (Math_min max (Math_max min v))
  | None => None
  end.

(** One entry of [SCENARIOS]: the numeric keys it sets, and the toggle
    [gh_45Q_eligible] where the preset has it (App.jsx). *)
Record Scenario : Type := mkScenario {
  sc_fields : list (key * Q);
  sc_gh : option bool
}.

Definition SCENARIOS (src : source_file) (name : string) : option Scenario :=
  let gh (b : bool) :=
    match src with App_jsx => Some b | part_000 => None end in
  if String.eqb name "conservative" then
    Some (mkScenario
            [ (CR_45Q, 50); (P_VCM, 15); (f_45Q, 0); (f_offtake, 1.0);
              (f_VCM, 0); (P_offtake, 50); (f_avail, 0.80); (f_install, 0.25);
              (P_elec, 0.12); (N_units, 1); (r_disc, 12) ]
            (gh false))
  else if String.eqb name "base" then
    Some (mkScenario
            [ (CR_45Q, 85); (P_VCM, 40); (f_45Q, 0.5); (f_offtake, 0.5);
              (f_VCM, 0); (P_offtake, 70); (f_avail, 0.90); (f_install, 0.20);
              (P_elec, 0.08); (N_units, 4); (r_disc, 10) ]
            (gh false))
  else if String.eqb name "optimistic" then
    Some (mkScenario
            [ (CR_45Q, 120); (P_VCM, 80); (f_45Q, 0.8); (f_offtake, 0.2);
              (f_VCM, 0); (P_offtake, 100); (f_avail, 0.95); (f_install, 0.15);
              (P_elec, 0.05); (N_units, 10); (r_disc, 8) ]
            (gh true))
  else None.

(** The keys the three presets of [SCENARIOS] set, in their order. *)
Definition scenario_keys : list key :=
  [CR_45Q; P_VCM; f_45Q; f_offtake; f_VCM; P_offtake; f_avail; f_install;
   P_elec; N_units; r_disc].

(** [{ ...prev, ...scenario }] *)
Definition merge_scenario (prev : ModelInputs) (sc : Scenario) : ModelInputs :=
  let merged := fold_left (fun i kv => set_field i (fst kv) (snd kv)) (sc_fields sc) prev in
  {| field := field merged;
     gh_45Q_eligible :=
       match sc_gh sc with
       | Some b => b
       | None => gh_45Q_eligible merged
       end |}.

(** The two pieces of state of [FinancialApp]. *)
Record AppState : Type := mkApp {
  app_scenario : string;
  app_inputs : ModelInputs
}.

(** [set(key)(val)] *)
Definition set (k : key) (val : Q) (st : AppState) : AppState :=
  {| app_scenario := "custom"; app_inputs := set_field (app_inputs st) k val |}.

(** [applyScenario(name)] *)
Definition applyScenario (src : source_file) (name : string) (st : AppState) : AppState :=
  {| app_scenario := name;
     app_inputs :=
       match SCENARIOS src name with
       | Some sc => merge_scenario (app_inputs st) sc
       | None => app_inputs st
       end |}.

Section App.

Variable Math_pow : Q -> Q -> Q.
Variable Math_log : Q -> Q.
Variable src : source_file.



End App.

(** [arr.map((c, i) => f(c, i))], counting from [i]. *)
Fixpoint mapi_from {A B : Type} (i : nat) (f : A -> nat -> B) (l : list A) : list B :=
  match l with
  | [] => []
  | c :: l' => f c i :: mapi_from (S i) f l'
  end.

(** One point of the fleet learning curve. *)
Record LearningPoint : Type := mkPoint {
  lp_unit : Q;
  lp_capex : Q;
  lp_cumulative : Q
}.

(** [learningData], from [results.unit_capex]. *)
Definition learningData (unit_capex : list Q) : list LearningPoint :=
  mapi_from 0
    (fun c i =>
       {| lp_unit := inject_Z (Z.of_nat i) + 1;
          lp_capex := c;
          lp_cumulative := fold_left (fun s v => s + v) (firstn (i + 1) unit_capex) 0 |})
    unit_capex.




(** ** More vocabulary *)

(** The number of iterations of a bisection loop that halves a bracket of
    width [w] and leaves once it is narrower than [tol]. *)
Fixpoint halvings (tol : Q) (remaining : nat) (w : Q) : nat :=
  match remaining with
  | O => O
  | S remaining' =>
      if ltb (Math_abs (w / 2)) tol then 1%nat
      else S (halvings tol remaining' (w / 2))
  end.

(** A width [w] halved [n] times. *)
Fixpoint halved (n : nat) (w : Q) : Q :=
  match n with
  | O => w
  | S n' => halved n' (w / 2)
  end.

(** The inputs of a single unit over one year after the first, with the
    whole capture sold to the offtaker: a loss in the year [y = 0] and a
    gain in the year [y = 1]. *)
Definition two_year_inputs : ModelInputs :=
  set_field
    (set_field
       (set_field
          (set_field (set_field default_inputs N_units 1) T_project 1)
          CO2_tpd 10)
       f_offtake 1)
    f_45Q 0.

(** The default inputs over a horizon of 0 years with a capture rate of 10
    t/day, all of it claimed for the 45Q credit: a loss without the credit,
    a gain at a credit of 300. *)
Definition breakeven_inputs : ModelInputs :=
  set_field (set_field horizon_0_inputs CO2_tpd 10) f_45Q 1.

(** The deployed-unit count of the year offset [y] as an integer, for a
    fleet of [n] units. *)
Definition deployed (inputs : ModelInputs) (n : Z) (y : Q) : Z :=
  Z.min n (Qfloor (y * field inputs units_per_year) + 1).

(** Two records hold the same numbers. *)
Definition same_year (a b : YearRecord) : Prop :=
  yr_year a = yr_year b /\ yr_y a = yr_y b
  /\ yr_N_deployed a = yr_N_deployed b /\ yr_CO2_fleet a = yr_CO2_fleet b
  /\ yr_R_45Q a == yr_R_45Q b /\ yr_R_VCM a = yr_R_VCM b
  /\ yr_R_offtake a == yr_R_offtake b /\ yr_R_comply a = yr_R_comply b
  /\ yr_R_total a == yr_R_total b
  /\ yr_OPEX a = yr_OPEX b /\ yr_capex_year a = yr_capex_year b
  /\ yr_CF a == yr_CF b /\ yr_DCF a == yr_DCF b
  /\ yr_cumulative_dcf a == yr_cumulative_dcf b
  /\ yr_R_per_ton a == yr_R_per_ton b /\ yr_OPEX_per_ton a = yr_OPEX_per_ton b.

(** The default inputs over one year after the first, with an eligibility
    threshold of 0. *)
Definition no_threshold_inputs : ModelInputs :=
  set_field (set_field default_inputs T_project 1) Q_thresh_45Q 0.

(** The default inputs without learning: every unit at the cost of the
    first. *)
Definition flat_curve_inputs : ModelInputs := set_field default_inputs LR 1.

(** The test of the discounted payback on a record. *)
Definition crosses_disc (yr : YearRecord) : bool :=
  geb (yr_cumulative_dcf yr) 0 && gtb (yr_y yr) 0.

(** The year offsets of the records with the running sum of their
    undiscounted cash flows, from [acc]. *)
Fixpoint running_cf (l : list YearRecord) (acc : Q) : list (Q * Q) :=
  match l with
  | [] => []
  | yr :: l' => (yr_y yr, acc + yr_CF yr) :: running_cf l' (acc + yr_CF yr)
  end.

(** The test of the simple payback on a year offset and its running sum. *)
Definition crosses_simple (p : Q * Q) : bool :=
  geb (snd p) 0 && gtb (fst p) 0.

(** [l.reduce((s, v) => s + v, 0)] *)
Definition sum_list (l : list Q) : Q := fold_left Qplus l 0.

(** More laws of the built-ins. *)
Definition pow_zero_law (Math_pow : Q -> Q -> Q) : Prop :=
  forall b e : Q, e == 0 -> Math_pow b e == 1.

Definition log_one_law (Math_log : Q -> Q) : Prop :=
  forall x : Q, x == 1 -> Math_log x == 0.

(** * Properties *)

(** ** The engine on the default scenario *)

Example default_CO2_tpy : CO2_tpy default_inputs == 1149.75.
Proof. vm_compute. reflexivity. Qed.

Example default_CAPEX_unit1 : CAPEX_unit1 default_inputs == 319950.
Proof. vm_compute. reflexivity. Qed.

Example default_deployment :
  map (fun y => Qred (N_deployed default_inputs y)) [0; 1; 2; 3] = [1; 3; 4; 4].
Proof. vm_compute. reflexivity. Qed.

Example lookup_outside_the_array :
  map (elem_or_0 [10; 20]) [0; 1; 2; -1; 0.5] = [10; 20; 0; 0; 0].
Proof. vm_compute. reflexivity. Qed.

Example sort_is_stable_and_descending :
  Array_sort (fun a b : Q * nat => fst b - fst a)
             [(1, 0%nat); (3, 1%nat); (1, 2%nat); (3, 3%nat)]
  = [(3, 1%nat); (3, 3%nat); (1, 0%nat); (1, 2%nat)].
Proof. vm_compute. reflexivity. Qed.



(** ** Comparisons *)

Lemma leb_true (a b : Q) : leb a b = true <-> a <= b.
Proof. apply Qle_bool_iff. Qed.

Lemma leb_false (a b : Q) : leb a b = false <-> b < a.
Proof.
  unfold leb. split; intro H.
  - apply Qnot_le_lt. intro Hle. apply Qle_bool_iff in Hle. congruence.
  - destruct (Qle_bool a b) eqn:E; [|reflexivity].
    apply Qle_bool_iff in E. lra.
Qed.

Lemma geb_true (a b : Q) : geb a b = true <-> b <= a.
Proof. apply leb_true. Qed.

Lemma geb_false (a b : Q) : geb a b = false <-> a < b.
Proof. apply leb_false. Qed.

Lemma gtb_true (a b : Q) : gtb a b = true <-> b < a.
Proof.
  unfold gtb. rewrite negb_true_iff. apply leb_false.
Qed.

Lemma gtb_false (a b : Q) : gtb a b = false <-> a <= b.
Proof.
  unfold gtb. rewrite negb_false_iff. apply leb_true.
Qed.

Lemma ltb_true (a b : Q) : ltb a b = true <-> a < b.
Proof. apply (gtb_true b a). Qed.

Lemma ltb_false (a b : Q) : ltb a b = false <-> b <= a.
Proof. apply (gtb_false b a). Qed.

(** ** Floors and trip counts *)

Ltac inj_consts :=
  repeat rewrite inject_Z_plus in *;
  change (inject_Z 1) with 1 in *;
  change (inject_Z 0) with 0 in *;
  change (inject_Z (- (1))) with (- (1)) in *.

Lemma Qfloor_unique (z : Z) (x : Q) :
  inject_Z z <= x -> x < inject_Z (z + 1) -> Qfloor x = z.
Proof.
  intros Hlo Hhi.
  pose proof (Qfloor_le x) as H1.
  pose proof (Qlt_floor x) as H2.
  assert (A : (z < Qfloor x + 1)%Z) by (rewrite Zlt_Qlt; lra).
  assert (B : (Qfloor x < z + 1)%Z) by (rewrite Zlt_Qlt; lra).
  lia.
Qed.

Lemma Qfloor_minus_1 (x : Q) : Qfloor (x - 1) = (Qfloor x - 1)%Z.
Proof.
  pose proof (Qfloor_le x) as H1.
  pose proof (Qlt_floor x) as H2.
  apply Qfloor_unique.
  - unfold Z.sub. inj_consts. lra.
  - replace (Qfloor x - 1 + 1)%Z with (Qfloor x) by lia. inj_consts. lra.
Qed.

Lemma Qfloor_nonneg (x : Q) : 0 <= x -> (0 <= Qfloor x)%Z.
Proof.
  intro H. change 0%Z with (Qfloor 0). now apply Qfloor_resp_le.
Qed.

Lemma Qfloor_neg (x : Q) : x < 0 -> (Qfloor x < 0)%Z.
Proof.
  intro H. rewrite Zlt_Qlt. pose proof (Qfloor_le x). inj_consts. lra.
Qed.

Lemma trips_le_step (start bound : Q) :
  start <= bound -> trips_le start bound = S (trips_le (start + 1) bound).
Proof.
  intro H. unfold trips_le.
  assert (E : Qfloor (bound - (start + 1)) = (Qfloor (bound - start) - 1)%Z).
  { rewrite <- Qfloor_minus_1. apply Qfloor_comp. ring. }
  rewrite E.
  assert (0 <= Qfloor (bound - start))%Z by (apply Qfloor_nonneg; lra).
  lia.
Qed.

Lemma trips_le_done (start bound : Q) :
  bound < start -> trips_le start bound = O.
Proof.
  intro H. unfold trips_le.
  assert (Qfloor (bound - start) < 0)%Z by (apply Qfloor_neg; lra).
  lia.
Qed.

Lemma Qceiling_pos (x : Q) : 0 < x -> (0 < Qceiling x)%Z.
Proof.
  intro H. unfold Qceiling.
  assert (Qfloor (- x) < 0)%Z by (apply Qfloor_neg; lra).
  lia.
Qed.

Lemma Qceiling_nonpos (x : Q) : x <= 0 -> (Qceiling x <= 0)%Z.
Proof.
  intro H. unfold Qceiling.
  assert (0 <= Qfloor (- x))%Z by (apply Qfloor_nonneg; lra).
  lia.
Qed.

Lemma trips_lt_step (start bound : Q) :
  start < bound -> trips_lt start bound = S (trips_lt (start + 1) bound).
Proof.
  intro H. unfold trips_lt, Qceiling.
  assert (E : Qfloor (- (bound - (start + 1))) = (Qfloor (- (bound - start)) + 1)%Z).
  { pose proof (Qfloor_le (- (bound - start))) as H1.
    pose proof (Qlt_floor (- (bound - start))) as H2.
    apply Qfloor_unique; inj_consts; lra. }
  rewrite E.
  assert (Qfloor (- (bound - start)) < 0)%Z by (apply Qfloor_neg; lra).
  lia.
Qed.

Lemma trips_lt_done (start bound : Q) :
  bound <= start -> trips_lt start bound = O.
Proof.
  intro H. unfold trips_lt.
  assert (Qceiling (bound - start) <= 0)%Z by (apply Qceiling_nonpos; lra).
  lia.
Qed.

(** ** The counting loops leave through their test *)

Lemma for_loop_le_spec {A : Type} (bound : Q) (body : Q -> A -> A) :
  forall (fuel : nat) (start : Q) (acc : A),
    (trips_le start bound < fuel)%nat ->
    for_loop fuel (fun n => leb n bound) start body acc
    = fold_left (fun a n => body n a) (count_from start (trips_le start bound)) acc.
Proof.
  induction fuel as [|fuel IH]; intros start acc Hfuel; [lia|].
  simpl. destruct (leb start bound) eqn:E.
  - apply leb_true in E.
    rewrite (trips_le_step _ _ E) in *. simpl.
    apply IH. lia.
  - apply leb_false in E. rewrite (trips_le_done _ _ E). reflexivity.
Qed.

Lemma for_loop_lt_spec {A : Type} (bound : Q) (body : Q -> A -> A) :
  forall (fuel : nat) (start : Q) (acc : A),
    (trips_lt start bound < fuel)%nat ->
    for_loop fuel (fun n => ltb n bound) start body acc
    = fold_left (fun a n => body n a) (count_from start (trips_lt start bound)) acc.
Proof.
  induction fuel as [|fuel IH]; intros start acc Hfuel; [lia|].
  simpl. destruct (ltb start bound) eqn:E.
  - apply ltb_true in E.
    rewrite (trips_lt_step _ _ E) in *. simpl.
    apply IH. lia.
  - apply ltb_false in E. rewrite (trips_lt_done _ _ E). reflexivity.
Qed.

Lemma for_le_spec {A : Type} (start bound : Q) (body : Q -> A -> A) (acc : A) :
  for_le start bound body acc
  = fold_left (fun a n => body n a) (count_from start (trips_le start bound)) acc.
Proof. unfold for_le. apply for_loop_le_spec. lia. Qed.

Lemma for_lt_spec {A : Type} (start bound : Q) (body : Q -> A -> A) (acc : A) :
  for_lt start bound body acc
  = fold_left (fun a n => body n a) (count_from start (trips_lt start bound)) acc.
Proof. unfold for_lt. apply for_loop_lt_spec. lia. Qed.

(** More fuel changes nothing: the loops never stop for lack of it. *)
Lemma for_le_exits {A : Type} (start bound : Q) (body : Q -> A -> A) (acc : A) (extra : nat) :
  for_loop (S (trips_le start bound) + extra) (fun n => leb n bound) start body acc
  = for_le start bound body acc.
Proof.
  rewrite for_le_spec. apply for_loop_le_spec. lia.
Qed.

Lemma for_lt_exits {A : Type} (start bound : Q) (body : Q -> A -> A) (acc : A) (extra : nat) :
  for_loop (S (trips_lt start bound) + extra) (fun n => ltb n bound) start body acc
  = for_lt start bound body acc.
Proof.
  rewrite for_lt_spec. apply for_loop_lt_spec. lia.
Qed.

(** ** The counter values *)

Lemma count_from_length (k : nat) : forall start, List.length (count_from start k) = k.
Proof. induction k; intros; simpl; [reflexivity|now rewrite IHk]. Qed.

Lemma count_from_nth (k : nat) :
  forall (start : Q) (i : nat) (q : Q),
    nth_error (count_from start k) i = Some q ->
    q == start + inject_Z (Z.of_nat i).
Proof.
  induction k as [|k IH]; intros start i q H.
  - destruct i; discriminate.
  - destruct i as [|i]; simpl in H.
    + injection H as <-. change (inject_Z (Z.of_nat 0)) with 0. ring.
    + apply IH in H. rewrite H. rewrite Nat2Z.inj_succ, <- Z.add_1_r.
      inj_consts. ring.
Qed.

Lemma count_from_snoc (k : nat) :
  forall start, exists last,
    count_from start (S k) = count_from start k ++ [last].
Proof.
  induction k as [|k IH]; intro start.
  - exists start. reflexivity.
  - destruct (IH (start + 1)) as [last E].
    exists last. change (count_from start (S (S k))) with (start :: count_from (start + 1) (S k)).
    rewrite E. reflexivity.
Qed.

(** The horizon in iterations: none below 0, [t + 1] for the integer [t]. *)
Lemma trips_le_0_integer (T : Q) (t : Z) :
  T == inject_Z t -> (0 <= t)%Z -> trips_le 0 T = S (Z.to_nat t).
Proof.
  intros E Ht. unfold trips_le.
  assert (F : Qfloor (T - 0) = t).
  { rewrite <- (Qfloor_Z t). apply Qfloor_comp. rewrite E. ring. }
  rewrite F. lia.
Qed.

Lemma trips_le_0_pos (T : Q) : 0 <= T -> (1 <= trips_le 0 T)%nat.
Proof.
  intro H. rewrite (trips_le_step 0 T H). lia.
Qed.


Lemma trips_le_0_one (T : Q) : 0 <= T -> T < 1 -> trips_le 0 T = 1%nat.
Proof.
  intros H0 H1. rewrite (trips_le_step 0 T H0).
  rewrite trips_le_done by lra. reflexivity.
Qed.

(** ** The year loop *)

Section Simulation.

Variable Math_pow : Q -> Q -> Q.
Variable Math_log : Q -> Q.
Variable src : source_file.
Variable inputs : ModelInputs.

Local Notation "'step'" := (fun st y => year_step Math_pow Math_log src inputs y st).
Local Notation "'dcf'" := (DCF Math_pow Math_log src inputs).
Local Notation "'recs'" := (records Math_pow Math_log src inputs).
Local Notation "'counters'" := (count_from 0 (trips_le 0 (field inputs T_project))).

Lemma simulation_fold :
  simulation Math_pow Math_log src inputs = fold_left step counters sim_init.
Proof. unfold simulation. apply for_le_spec. Qed.

Lemma sim_cumulative (l : list Q) :
  forall st, st_cumulative_dcf (fold_left step l st)
             = fold_left Qplus (map dcf l) (st_cumulative_dcf st).
Proof.
  induction l as [|y l IH]; intro st; simpl; [reflexivity|].
  rewrite IH. reflexivity.
Qed.

Lemma sim_years (l : list Q) :
  forall st, st_years (fold_left step l st)
             = st_years st ++ recs l (st_cumulative_dcf st).
Proof.
  induction l as [|y l IH]; intro st; simpl.
  - now rewrite app_nil_r.
  - rewrite IH. simpl. now rewrite <- app_assoc.
Qed.

Lemma years_records :
  years Math_pow Math_log src inputs = recs counters 0.
Proof.
  unfold years. rewrite simulation_fold, sim_years. reflexivity.
Qed.

Lemma NPV_fold :
  NPV Math_pow Math_log src inputs = fold_left Qplus (map dcf counters) 0.
Proof.
  unfold NPV. rewrite simulation_fold, sim_cumulative. reflexivity.
Qed.

Lemma records_length (l : list Q) :
  forall c, List.length (recs l c) = List.length l.
Proof. induction l; intro c; simpl; [reflexivity|now rewrite IHl]. Qed.

Lemma records_y (l : list Q) : forall c, map yr_y (recs l c) = l.
Proof. induction l; intro c; simpl; [reflexivity|now rewrite IHl]. Qed.

Lemma records_dcf (l : list Q) : forall c, map yr_DCF (recs l c) = map dcf l.
Proof. induction l; intro c; simpl; [reflexivity|now rewrite IHl]. Qed.

Lemma records_nth (l : list Q) :
  forall (c : Q) (i : nat) (yr : YearRecord),
    nth_error (recs l c) i = Some yr ->
    exists y c', nth_error l i = Some y
                 /\ yr = year_record Math_pow Math_log src inputs y c'.
Proof.
  induction l as [|y l IH]; intros c i yr H.
  - destruct i; discriminate.
  - destruct i as [|i]; simpl in H.
    + injection H as <-. now exists y, (c + dcf y).
    + apply IH in H. exact H.
Qed.

Lemma records_In (l : list Q) (c : Q) (yr : YearRecord) :
  In yr (recs l c) ->
  exists y c', In y l /\ yr = year_record Math_pow Math_log src inputs y c'.
Proof.
  intro H. apply In_nth_error in H. destruct H as [i H].
  apply records_nth in H. destruct H as (y & c' & Hy & E).
  exists y, c'. split; [|exact E]. eapply nth_error_In; eauto.
Qed.

Lemma records_snoc (l : list Q) (y : Q) :
  forall c, recs (l ++ [y]) c
            = recs l c
              ++ [year_record Math_pow Math_log src inputs y
                    (fold_left Qplus (map dcf (l ++ [y])) c)].
Proof.
  induction l as [|a l IH]; intro c; simpl; [reflexivity|].
  now rewrite IH.
Qed.

(** Every record carries the quantities of its own year offset. *)
Lemma years_In (yr : YearRecord) :
  In yr (years Math_pow Math_log src inputs) ->
  exists y c, yr = year_record Math_pow Math_log src inputs y c.
Proof.
  rewrite years_records. intro H. apply records_In in H.
  destruct H as (y & c & _ & E). now exists y, c.
Qed.

Lemma years_length :
  List.length (years Math_pow Math_log src inputs) = trips_le 0 (field inputs T_project).
Proof. now rewrite years_records, records_length, count_from_length. Qed.

(** The record at index [i] is that of the year offset [i]. *)
Lemma years_nth_y (i : nat) (yr : YearRecord) :
  nth_error (years Math_pow Math_log src inputs) i = Some yr ->
  yr_y yr == inject_Z (Z.of_nat i).
Proof.
  intro H. rewrite years_records in H.
  apply records_nth in H. destruct H as (y & c & Hy & ->). simpl.
  apply count_from_nth in Hy. rewrite Hy. ring.
Qed.

Lemma years_length_integer (t : Z) :
  field inputs T_project == inject_Z t -> (0 <= t)%Z ->
  List.length (years Math_pow Math_log src inputs) = S (Z.to_nat t).
Proof.
  intros Ht H0. rewrite years_length. now apply trips_le_0_integer.
Qed.

(** The last record holds the final running sum. *)
Lemma years_last :
  years Math_pow Math_log src inputs <> [] ->
  exists front final,
    years Math_pow Math_log src inputs = front ++ [final]
    /\ yr_cumulative_dcf final = NPV Math_pow Math_log src inputs.
Proof.
  intro Hne. rewrite NPV_fold. rewrite years_records in *.
  destruct (trips_le 0 (field inputs T_project)) as [|k].
  - now elim Hne.
  - destruct (count_from_snoc k 0) as [y E]. rewrite E.
    rewrite records_snoc. eexists _, _. split; reflexivity.
Qed.

(** *** What the call returns *)

Lemma yr1_none :
  yr1 Math_pow Math_log src inputs = None
  <-> years Math_pow Math_log src inputs = [].
Proof.
  unfold yr1. destruct (years Math_pow Math_log src inputs) as [|a [|b l]];
    simpl; split; intro H; congruence.
Qed.

Lemma run_fields (res : ModelResult) :
  runFinancialModel Math_pow Math_log src inputs = Some res ->
  res_years res = years Math_pow Math_log src inputs
  /\ res_NPV res = NPV Math_pow Math_log src inputs
  /\ res_IRR res = IRR Math_pow Math_log src inputs
  /\ res_CR_breakeven res = CR_breakeven Math_pow Math_log src inputs
  /\ res_unit_capex res = unit_capex Math_pow Math_log inputs
  /\ res_CAPEX_unit1 res = CAPEX_unit1 inputs
  /\ exists yr, yr1 Math_pow Math_log src inputs = Some yr /\ summary_from res yr.
Proof.
  unfold runFinancialModel.
  destruct (yr1 Math_pow Math_log src inputs) as [yr|] eqn:E; [|discriminate].
  intro H. injection H as <-. simpl.
  repeat split; try reflexivity.
  exists yr. split; [reflexivity|]. unfold summary_from. simpl.
  repeat split; reflexivity.
Qed.

Lemma run_years_nonempty (res : ModelResult) :
  runFinancialModel Math_pow Math_log src inputs = Some res ->
  years Math_pow Math_log src inputs <> [].
Proof.
  intros H Hnil. apply yr1_none in Hnil.
  unfold runFinancialModel in H. rewrite Hnil in H. discriminate.
Qed.

(** The call returns when the horizon is not negative, and throws when it
    is. *)
Lemma run_returns :
  0 <= field inputs T_project ->
  exists res, runFinancialModel Math_pow Math_log src inputs = Some res.
Proof.
  intro H. unfold runFinancialModel.
  destruct (yr1 Math_pow Math_log src inputs) as [yr|] eqn:E.
  - eexists. reflexivity.
  - apply yr1_none in E. apply (f_equal (@List.length _)) in E.
    rewrite years_length in E. pose proof (trips_le_0_pos _ H). simpl in E. lia.
Qed.

Lemma run_throws :
  field inputs T_project < 0 ->
  runFinancialModel Math_pow Math_log src inputs = None.
Proof.
  intro H. unfold runFinancialModel.
  assert (E : yr1 Math_pow Math_log src inputs = None).
  { apply yr1_none. rewrite years_records, trips_le_done by exact H. reflexivity. }
  now rewrite E.
Qed.

Lemma run_horizon (res : ModelResult) :
  runFinancialModel Math_pow Math_log src inputs = Some res ->
  0 <= field inputs T_project.
Proof.
  intro H. destruct (Qlt_le_dec (field inputs T_project) 0) as [Hlt|Hle]; [|exact Hle].
  rewrite (run_throws Hlt) in H. discriminate.
Qed.

End Simulation.

(** ** NPV and the final record (C1) *)

Lemma record_dcf_formula (Math_pow : Q -> Q -> Q) (Math_log : Q -> Q)
    (src : source_file) (inputs : ModelInputs) (yr : YearRecord) :
  In yr (years Math_pow Math_log src inputs) ->
  yr_DCF yr = yr_CF yr / Math_pow (1 + field inputs r_disc / 100) (yr_y yr).
Proof.
  intro H. apply years_In in H. destruct H as (y & c & ->). reflexivity.
Qed.

(** C1.  The NPV that [runFinancialModel] returns is the cumulative
    discounted cash flow of the last record of [years], and it is the sum,
    over the records in order, of [CF / (1 + r_disc/100)^y]; the records are
    those of the year offsets 0, 1, ..., [T_project]. *)
Theorem NPV_is_final_cumulative_dcf :
  forall (Math_pow : Q -> Q -> Q) (Math_log : Q -> Q) (src : source_file)
         (inputs : ModelInputs) (res : ModelResult),
    runFinancialModel Math_pow Math_log src inputs = Some res ->
    (exists front final,
        res_years res = front ++ [final]
        /\ res_NPV res = yr_cumulative_dcf final)
    /\ res_NPV res
       = fold_left Qplus
           (map (fun yr => yr_CF yr / Math_pow (1 + field inputs r_disc / 100) (yr_y yr))
                (res_years res))
           0
    /\ (forall i yr, nth_error (res_years res) i = Some yr ->
                     yr_y yr == inject_Z (Z.of_nat i))
    /\ (forall t, field inputs T_project == inject_Z t ->
                  List.length (res_years res) = S (Z.to_nat t)).
Proof.
  intros Math_pow Math_log src inputs res Hrun.
  pose proof (run_years_nonempty _ _ _ _ _ Hrun) as Hne.
  pose proof (run_horizon _ _ _ _ _ Hrun) as Hhor.
  destruct (run_fields _ _ _ _ _ Hrun) as (Hy & Hn & _).
  rewrite Hy, Hn. repeat split.
  - destruct (years_last _ _ _ _ Hne) as (front & final & E & Hc).
    exists front, final. split; [exact E|]. now symmetry.
  - rewrite NPV_fold. f_equal.
    rewrite <- (records_dcf Math_pow Math_log src inputs _ 0), <- years_records.
    apply map_ext_in. intros yr Hin. exact (record_dcf_formula Math_pow Math_log src inputs yr Hin).
  - intros i yr H. exact (years_nth_y _ _ _ _ _ _ H).
  - intros t Ht. apply years_length_integer; [exact Ht|].
    rewrite Zle_Qle. rewrite <- Ht. exact Hhor.
Qed.

Lemma NPV_is_final_cumulative_dcf_witness :
  exists res,
    runFinancialModel pow_ref log_ref App_jsx default_inputs = Some res
    /\ (exists front final,
           res_years res = front ++ [final]
           /\ res_NPV res = yr_cumulative_dcf final)
    /\ List.length (res_years res) = 21%nat.
Proof.
  destruct (run_returns pow_ref log_ref App_jsx default_inputs) as [res E].
  - vm_compute. discriminate.
  - exists res. split; [exact E|].
    destruct (NPV_is_final_cumulative_dcf pow_ref log_ref App_jsx default_inputs res E)
      as (H1 & _ & _ & H4).
    split; [exact H1|]. apply (H4 20%Z). reflexivity.
Defined.

(** ** The deployment count (C4) *)

Lemma Math_floor_mono (a b : Q) : a <= b -> Math_floor a <= Math_floor b.
Proof.
  intro H. unfold Math_floor. rewrite <- Zle_Qle. now apply Qfloor_resp_le.
Qed.

(** C4.  With a fleet of at least one unit and a deploy rate that is not
    negative, the deployed-unit count
    [N(y) = min(N_units, floor(y * units_per_year) + 1)] does not decrease
    with [y], is at least 1 at [y = 0] and never exceeds [N_units]; it is the
    count every record of [years] stores for its year offset. *)
Theorem deployment_count_monotone_bounded :
  forall inputs : ModelInputs,
    1 <= field inputs N_units ->
    0 <= field inputs units_per_year ->
    (forall y1 y2, y1 <= y2 -> N_deployed inputs y1 <= N_deployed inputs y2)
    /\ 1 <= N_deployed inputs 0
    /\ (forall y, N_deployed inputs y <= field inputs N_units)
    /\ (forall Math_pow Math_log src yr,
           In yr (years Math_pow Math_log src inputs) ->
           yr_N_deployed yr = N_deployed inputs (yr_y yr)).
Proof.
  intros inputs HN Hrate. unfold N_deployed, Math_min. repeat split.
  - intros y1 y2 Hy. apply Q.min_le_compat_l.
    apply Qplus_le_compat; [|lra]. apply Math_floor_mono.
    now apply Qmult_le_compat_r.
  - apply Q.min_glb; [exact HN|].
    assert (E : Math_floor (0 * field inputs units_per_year) == 0).
    { unfold Math_floor. rewrite (Qfloor_comp _ 0) by ring. reflexivity. }
    rewrite E. lra.
  - intro y. apply Q.le_min_l.
  - intros Math_pow Math_log src yr H. apply years_In in H.
    destruct H as (y & c & ->). reflexivity.
Qed.

Lemma deployment_count_monotone_bounded_witness :
  N_deployed default_inputs 1 <= N_deployed default_inputs 2
  /\ 1 <= N_deployed default_inputs 0
  /\ N_deployed default_inputs 2 <= field default_inputs N_units.
Proof.
  destruct (deployment_count_monotone_bounded default_inputs) as (Hm & H0 & Hb & _).
  - vm_compute. discriminate.
  - vm_compute. discriminate.
  - split; [apply Hm; vm_compute; discriminate|]. split; [exact H0|apply Hb].
Defined.

(** ** The first unit's CAPEX (C5) *)

Lemma capex_loop_fst (Math_pow : Q -> Q -> Q) (Math_log : Q -> Q) (inputs : ModelInputs)
    (l : list Q) :
  forall acc : list Q * Q,
    fst (fold_left
           (fun a n =>
              (fst a ++ [CAPEX_unit1 inputs * Math_pow n (lr_exp Math_log inputs)],
               snd a + CAPEX_unit1 inputs * Math_pow n (lr_exp Math_log inputs)))
           l acc)
    = fst acc ++ map (fun n => CAPEX_unit1 inputs * Math_pow n (lr_exp Math_log inputs)) l.
Proof.
  induction l as [|n l IH]; intro acc; simpl.
  - now rewrite app_nil_r.
  - rewrite IH. simpl. now rewrite <- app_assoc.
Qed.

(** The schedule is the learning curve over the unit numbers 1, 2, ... *)
Lemma unit_capex_map (Math_pow : Q -> Q -> Q) (Math_log : Q -> Q) (inputs : ModelInputs) :
  unit_capex Math_pow Math_log inputs
  = map (fun n => CAPEX_unit1 inputs * Math_pow n (lr_exp Math_log inputs))
        (count_from 1 (trips_le 1 (field inputs N_units))).
Proof.
  unfold unit_capex, capex_loop. rewrite for_le_spec.
  now rewrite capex_loop_fst.
Qed.




(** ** Revenue without allocations (C2) *)

(** C2, as stated, fails in App.jsx: with the four allocation fractions at 0
    and half of the CO2 sent to the greenhouse, the year [y = 0] of the
    default scenario earns 1149.75 * 0.5 * 70 = 40241.25 of greenhouse
    offtake revenue. *)
Lemma greenhouse_revenue_without_allocations :
  field greenhouse_only_inputs f_45Q == 0
  /\ field greenhouse_only_inputs f_VCM == 0
  /\ field greenhouse_only_inputs f_offtake == 0
  /\ field greenhouse_only_inputs f_comply == 0
  /\ exists res yr,
       runFinancialModel pow_ref log_ref App_jsx greenhouse_only_inputs = Some res
       /\ nth_error (res_years res) 0 = Some yr
       /\ yr_R_total yr == 40241.25
       /\ ~ yr_R_total yr == 0.
Proof.
  repeat (split; [vm_compute; reflexivity|]).
  destruct (run_returns pow_ref log_ref App_jsx greenhouse_only_inputs) as [res E].
  { vm_compute. discriminate. }
  destruct (run_fields _ _ _ _ _ E) as (Hy & _).
  exists res.
  exists (year_record pow_ref log_ref App_jsx greenhouse_only_inputs 0
            (0 + DCF pow_ref log_ref App_jsx greenhouse_only_inputs 0)).
  split; [exact E|]. split.
  - rewrite Hy, years_records.
    rewrite (trips_le_step 0 _) by (vm_compute; discriminate). reflexivity.
  - assert (V : R_total pow_ref App_jsx greenhouse_only_inputs 0 == 40241.25)
      by (vm_compute; reflexivity).
    simpl yr_R_total. split; [exact V|]. rewrite V. vm_compute. discriminate.
Qed.

(** C2, amended.  When the four allocation fractions are 0 and, in App.jsx,
    the greenhouse fraction is 0 as well, the total revenue of every record
    of [years] is 0, whatever the other inputs. *)
Theorem zero_allocations_zero_revenue :
  forall (Math_pow : Q -> Q -> Q) (Math_log : Q -> Q) (src : source_file)
         (inputs : ModelInputs),
    field inputs f_45Q == 0 ->
    field inputs f_VCM == 0 ->
    field inputs f_offtake == 0 ->
    field inputs f_comply == 0 ->
    (src = App_jsx -> field inputs f_greenhouse == 0) ->
    forall yr, In yr (years Math_pow Math_log src inputs) -> yr_R_total yr == 0.
Proof.
  intros Math_pow Math_log src inputs H45 Hvcm Hoff Hcom Hgh yr Hin.
  apply years_In in Hin. destruct Hin as (y & c & ->). simpl.
  unfold R_total.
  assert (E45 : R_45Q Math_pow src inputs y = 0).
  { unfold R_45Q.
    assert (G : gtb (field inputs f_45Q) 0 = false) by (apply gtb_false; lra).
    rewrite G. simpl. now destruct src. }
  assert (Evcm : R_VCM Math_pow inputs y == 0).
  { unfold R_VCM. rewrite Hvcm. ring. }
  assert (Ecom : R_comply Math_pow inputs y == 0).
  { unfold R_comply. rewrite Hcom. ring. }
  assert (Eoff : R_offtake Math_pow src inputs y == 0).
  { unfold R_offtake. destruct src.
    - specialize (Hgh eq_refl).
      unfold R_offtake_non_gh, R_offtake_gh, Math_max.
      assert (M : Qmax 0 (field inputs f_offtake - field inputs f_greenhouse) == 0)
        by (apply Q.max_l; lra).
      rewrite M, Hgh. ring.
    - rewrite Hoff. ring. }
  rewrite E45, Evcm, Ecom, Eoff. reflexivity.
Qed.

Lemma zero_allocations_zero_revenue_witness :
  Forall (fun yr => yr_R_total yr == 0)
         (years pow_ref log_ref part_000 greenhouse_only_inputs).
Proof.
  apply Forall_forall.
  apply zero_allocations_zero_revenue; try (vm_compute; reflexivity).
  discriminate.
Defined.

(** ** The effective credit rate (C6) *)

(** C6, as stated, fails for a negative base rate: in the year [y = 2] of
    the default scenario of part_000 (calendar year 2028, stream active,
    r_CPI = 2.5) a base rate of -85 is escalated to -85 * 1.025 = -87.125,
    below the base rate. *)
Lemma escalation_lowers_negative_rate :
  0 <= field negative_rate_inputs r_CPI
  /\ gtb (field negative_rate_inputs f_45Q) 0
     && leb 2 (field negative_rate_inputs T_45Q) = true
  /\ R_45Q pow_ref part_000 negative_rate_inputs 2
     == CO2_fleet negative_rate_inputs 2 * field negative_rate_inputs f_45Q
        * cr pow_ref negative_rate_inputs 2
  /\ cr pow_ref negative_rate_inputs 2 == -87.125
  /\ cr pow_ref negative_rate_inputs 2 < field negative_rate_inputs CR_45Q.
Proof.
  split; [vm_compute; discriminate|].
  split; [vm_compute; reflexivity|].
  split; [vm_compute; reflexivity|].
  split; [vm_compute; reflexivity|].
  vm_compute. reflexivity.
Qed.

(** C6, amended.  In a year in which the incentive stream is active the
    revenue is earned at the rate [cr]: the base rate [CR_45Q] in a calendar
    year before [Y_45Q_infl], and
    [CR_45Q * (1 + r_CPI/100)^(year - Y_45Q_infl)] from that year on.  When
    neither [r_CPI] nor the base rate is negative, [cr] is never below the
    base rate. *)
Theorem effective_credit_rate :
  forall (Math_pow : Q -> Q -> Q) (inputs : ModelInputs) (y : Q),
    pow_ge_one_law Math_pow ->
    (year inputs y < field inputs Y_45Q_infl ->
     cr Math_pow inputs y = field inputs CR_45Q)
    /\ (field inputs Y_45Q_infl <= year inputs y ->
        cr Math_pow inputs y
        = field inputs CR_45Q
          * Math_pow (1 + field inputs r_CPI / 100) (year inputs y - field inputs Y_45Q_infl))
    /\ (0 <= field inputs r_CPI -> 0 <= field inputs CR_45Q ->
        field inputs CR_45Q <= cr Math_pow inputs y)
    /\ (gtb (field inputs f_45Q) 0 && leb y (field inputs T_45Q) = true ->
        R_45Q Math_pow part_000 inputs y
        = CO2_fleet inputs y * field inputs f_45Q * cr Math_pow inputs y)
    /\ (gtb (field inputs f_45Q) 0 && leb y (field inputs T_45Q)
        && is_45Q_eligible App_jsx inputs y = true ->
        R_45Q Math_pow App_jsx inputs y
        = if gh_45Q_eligible inputs
          then (CO2_fleet inputs y * field inputs f_45Q * (1 - field inputs f_greenhouse)
                + CO2_fleet inputs y * field inputs f_greenhouse)
               * cr Math_pow inputs y
          else CO2_fleet inputs y * field inputs f_45Q * (1 - field inputs f_greenhouse)
               * cr Math_pow inputs y).
Proof.
  intros Math_pow inputs y Hpow. unfold cr.
  split; [|split; [|split; [|split]]].
  - intro H. apply geb_false in H. now rewrite H.
  - intro H. apply geb_true in H. now rewrite H.
  - intros Hr Hc.
    destruct (geb (year inputs y) (field inputs Y_45Q_infl)) eqn:E; [|lra].
    apply geb_true in E.
    assert (P : 1 <= Math_pow (1 + field inputs r_CPI / 100)
                              (year inputs y - field inputs Y_45Q_infl)).
    { apply Hpow; [|lra].
      assert (0 <= field inputs r_CPI / 100) by (apply Qle_shift_div_l; lra).
      lra. }
    set (p := Math_pow _ _) in *. nra.
  - intro H. unfold R_45Q. now rewrite H.
  - intro H. unfold R_45Q. now rewrite H.
Qed.

Lemma pow_ref_ge_one : pow_ge_one_law pow_ref.
Proof.
  intros b e Hb He. unfold pow_ref.
  pose proof (Qfloor_le e) as Hfl.
  assert (Hk : (0 <= Qfloor e)%Z) by now apply Qfloor_nonneg.
  pose proof (Qpower_1_le b (Qfloor e) Hb Hk) as Hp.
  set (p := b ^ Qfloor e) in *. set (k := inject_Z (Qfloor e)) in *.
  assert (Hd : 0 <= (e - k) * (b - 1)) by (apply Qmult_le_0_compat; lra).
  set (d := (e - k) * (b - 1)) in *.
  assert (Hpd : 0 <= (p - 1) * d) by (apply Qmult_le_0_compat; lra).
  lra.
Qed.

Lemma effective_credit_rate_witness :
  cr pow_ref default_inputs 0 = field default_inputs CR_45Q
  /\ field default_inputs CR_45Q <= cr pow_ref default_inputs 3.
Proof.
  destruct (effective_credit_rate pow_ref default_inputs 0 pow_ref_ge_one)
    as (Hbefore & _).
  destruct (effective_credit_rate pow_ref default_inputs 3 pow_ref_ge_one)
    as (_ & _ & Hge & _).
  split.
  - apply Hbefore. vm_compute. reflexivity.
  - apply Hge; vm_compute; discriminate.
Defined.

(** ** The per-ton ratios of a year without output (C8) *)

(** C8, as stated, fails: with a capture rate of 0 the fleet output of the
    year [y = 0] is 0 and the record's [R_per_ton] and [OPEX_per_ton] are the
    number 0 of the guard [CO2_fleet > 0 ? ... : 0], although the OPEX of
    that year is not 0; no division by the output takes place. *)
Lemma zero_output_ratios_are_zero :
  exists res yr,
    runFinancialModel pow_ref log_ref App_jsx no_capture_inputs = Some res
    /\ nth_error (res_years res) 0 = Some yr
    /\ yr_CO2_fleet yr == 0
    /\ ~ yr_OPEX yr == 0
    /\ yr_R_per_ton yr = 0
    /\ yr_OPEX_per_ton yr = 0.
Proof.
  destruct (run_returns pow_ref log_ref App_jsx no_capture_inputs) as [res E].
  { vm_compute. discriminate. }
  destruct (run_fields _ _ _ _ _ E) as (Hy & _).
  exists res.
  exists (year_record pow_ref log_ref App_jsx no_capture_inputs 0
            (0 + DCF pow_ref log_ref App_jsx no_capture_inputs 0)).
  split; [exact E|]. split.
  - rewrite Hy, years_records.
    rewrite (trips_le_step 0 _) by (vm_compute; discriminate). reflexivity.
  - simpl. split; [|split; [|split]].
    + vm_compute. reflexivity.
    + vm_compute. discriminate.
    + vm_compute. reflexivity.
    + vm_compute. reflexivity.
Qed.

(** C8, amended.  The two per-ton ratios of a record are guarded: they are
    the number 0 in a year whose fleet output is not positive, and the
    quotient by the fleet output otherwise; the call returns for every
    horizon that is not negative, whatever the output. *)
Theorem per_ton_ratios_guarded :
  forall (Math_pow : Q -> Q -> Q) (Math_log : Q -> Q) (src : source_file)
         (inputs : ModelInputs),
    (forall yr, In yr (years Math_pow Math_log src inputs) ->
       (yr_CO2_fleet yr <= 0 -> yr_R_per_ton yr = 0 /\ yr_OPEX_per_ton yr = 0)
       /\ (0 < yr_CO2_fleet yr ->
           yr_R_per_ton yr = yr_R_total yr / yr_CO2_fleet yr
           /\ yr_OPEX_per_ton yr = yr_OPEX yr / yr_CO2_fleet yr))
    /\ (0 <= field inputs T_project ->
        exists res, runFinancialModel Math_pow Math_log src inputs = Some res
                    /\ res_years res = years Math_pow Math_log src inputs).
Proof.
  intros Math_pow Math_log src inputs. split.
  - intros yr Hin. apply years_In in Hin. destruct Hin as (y & c & ->). simpl.
    split; intro H.
    + apply gtb_false in H. rewrite H. now split.
    + apply gtb_true in H. rewrite H. now split.
  - intro HT. destruct (run_returns Math_pow Math_log src inputs HT) as [res E].
    exists res. split; [exact E|]. now destruct (run_fields _ _ _ _ _ E).
Qed.

Lemma per_ton_ratios_guarded_witness :
  exists res,
    runFinancialModel pow_ref log_ref App_jsx no_capture_inputs = Some res
    /\ res_years res = years pow_ref log_ref App_jsx no_capture_inputs.
Proof.
  destruct (per_ton_ratios_guarded pow_ref log_ref App_jsx no_capture_inputs)
    as (_ & H).
  apply H. vm_compute. discriminate.
Defined.

(** ** The year-1 summary (C10) *)



(** ** Bisection *)

Lemma midpoint_between (lo hi : Q) :
  lo <= hi -> lo <= (lo + hi) / 2 /\ (lo + hi) / 2 <= hi.
Proof.
  intro H. unfold Qdiv. change (/ 2) with (1 # 2). split; lra.
Qed.

(** ** The breakeven bisection (C9) *)

Section Breakeven.

Variable Math_pow : Q -> Q -> Q.
Variable Math_log : Q -> Q.
Variable src : source_file.
Variable inputs : ModelInputs.

(** The bracket stays inside its initial bounds, and the loop counter inside
    its budget, from any bracket the loop is entered with. *)
Lemma breakeven_loop_invariant (B : Q) :
  forall (remaining iter : nat) (b_lo b_hi : Q),
    0 <= b_lo -> b_lo <= b_hi -> b_hi <= B ->
    let b := breakeven_loop Math_pow Math_log src inputs remaining iter b_lo b_hi in
    0 <= br_lo b /\ br_lo b <= br_hi b /\ br_hi b <= B
    /\ (iter <= br_iter b)%nat /\ (br_iter b <= iter + remaining)%nat.
Proof.
  induction remaining as [|remaining IH]; intros iter b_lo b_hi H0 Hle HB.
  - simpl. repeat split; try assumption; lia.
  - cbn [breakeven_loop].
    set (mid := (b_lo + b_hi) / 2).
    assert (Hmid : b_lo <= mid /\ mid <= b_hi) by (apply midpoint_between; exact Hle).
    destruct Hmid as [Hm1 Hm2].
    set (t := ltb (breakeven_npv_test Math_pow Math_log src inputs mid) 0).
    assert (Hnext : 0 <= (if t then mid else b_lo)
                    /\ (if t then mid else b_lo) <= (if t then b_hi else mid)
                    /\ (if t then b_hi else mid) <= B)
      by (destruct t; repeat split; lra).
    destruct Hnext as (N0 & N1 & N2).
    destruct (ltb (Math_abs ((if t then b_hi else mid) - (if t then mid else b_lo))) 0.5).
    + simpl. repeat split; try assumption; lia.
    + specialize (IH (S iter) _ _ N0 N1 N2). cbv zeta in IH.
      destruct IH as (I0 & I1 & I2 & I3 & I4).
      repeat split; try assumption; lia.
Qed.

End Breakeven.

(** C9.  The breakeven bisection keeps [0 <= b_lo <= b_hi <= 300] after any
    number of iterations, runs at most 80 of them, and [CR_breakeven] is the
    midpoint of the final bracket: a number between 0 and 300, never
    [null]. *)
Theorem breakeven_price_within_bracket :
  forall (Math_pow : Q -> Q -> Q) (Math_log : Q -> Q) (src : source_file)
         (inputs : ModelInputs),
    (forall k : nat,
        let b := breakeven_loop Math_pow Math_log src inputs k 0 0 300 in
        0 <= br_lo b /\ br_lo b <= br_hi b /\ br_hi b <= 300)
    /\ (br_iter (breakeven_bracket Math_pow Math_log src inputs) <= 80)%nat
    /\ (exists p,
           CR_breakeven Math_pow Math_log src inputs = Some p
           /\ p = (br_lo (breakeven_bracket Math_pow Math_log src inputs)
                   + br_hi (breakeven_bracket Math_pow Math_log src inputs)) / 2
           /\ 0 <= p /\ p <= 300)
    /\ (forall res,
           runFinancialModel Math_pow Math_log src inputs = Some res ->
           res_CR_breakeven res = CR_breakeven Math_pow Math_log src inputs).
Proof.
  intros Math_pow Math_log src inputs.
  assert (Inv : forall k,
             let b := breakeven_loop Math_pow Math_log src inputs k 0 0 300 in
             0 <= br_lo b /\ br_lo b <= br_hi b /\ br_hi b <= 300
             /\ (0 <= br_iter b)%nat /\ (br_iter b <= 0 + k)%nat).
  { intro k. apply breakeven_loop_invariant; lra. }
  split; [|split; [|split]].
  - intro k. destruct (Inv k) as (A & B & C & _). cbv zeta. now repeat split.
  - destruct (Inv 80%nat) as (_ & _ & _ & _ & D). exact D.
  - destruct (Inv 80%nat) as (A & B & C & _). cbv zeta in A, B, C.
    eexists. split; [reflexivity|]. split; [reflexivity|].
    unfold breakeven_bracket.
    destruct (midpoint_between _ _ B) as [M1 M2]. split; lra.
  - intros res H. now destruct (run_fields _ _ _ _ _ H) as (_ & _ & _ & E & _).
Qed.

(** ** The IRR bisection (C3) *)

Section IRRSolver.

Variable Math_pow : Q -> Q -> Q.
Variable Math_log : Q -> Q.
Variable src : source_file.
Variable inputs : ModelInputs.

Local Notation "'loop'" := (irr_loop Math_pow Math_log src inputs).
Local Notation "'test'" := (irr_npv_test Math_pow Math_log src inputs).

(** The loop ends within its budget, and before the end of it only through
    the width test. *)
Lemma irr_loop_stops :
  forall (remaining iter : nat) (lo hi : Q),
    let b := loop remaining iter lo hi in
    (iter <= br_iter b)%nat /\ (br_iter b <= iter + remaining)%nat
    /\ ((br_iter b < iter + remaining)%nat ->
        Qabs (br_hi b - br_lo b) < 0.0001).
Proof.
  induction remaining as [|remaining IH]; intros iter lo hi.
  - simpl. repeat split; lia.
  - cbn [irr_loop]. cbv zeta.
    set (mid := (lo + hi) / 2).
    set (t := gtb (test mid) 0).
    destruct (ltb (Math_abs ((if t then hi else mid) - (if t then mid else lo))) 0.0001) eqn:W.
    + simpl. repeat split; try lia. intros _. now apply ltb_true in W.
    + specialize (IH (S iter) (if t then mid else lo) (if t then hi else mid)).
      cbv zeta in IH. destruct IH as (I1 & I2 & I3).
      repeat split; try lia. intro H. apply I3. lia.
Qed.

(** The bracket stays inside the one the loop is entered with. *)
Lemma irr_loop_bracket :
  forall (remaining iter : nat) (lo hi : Q),
    lo <= hi ->
    let b := loop remaining iter lo hi in
    lo <= br_lo b /\ br_lo b <= br_hi b /\ br_hi b <= hi.
Proof.
  induction remaining as [|remaining IH]; intros iter lo hi Hle.
  - simpl. repeat split; lra.
  - cbn [irr_loop]. cbv zeta.
    set (mid := (lo + hi) / 2).
    assert (Hmid : lo <= mid /\ mid <= hi) by (apply midpoint_between; exact Hle).
    destruct Hmid as [Hm1 Hm2].
    set (t := gtb (test mid) 0).
    assert (N : (if t then mid else lo) <= (if t then hi else mid))
      by (destruct t; lra).
    destruct (ltb (Math_abs ((if t then hi else mid) - (if t then mid else lo))) 0.0001).
    + simpl. destruct t; repeat split; lra.
    + specialize (IH (S iter) _ _ N). cbv zeta in IH.
      destruct IH as (I1 & I2 & I3). destruct t; repeat split; lra.
Qed.

(** When the test value is positive at every rate of the bracket, the upper
    end never moves. *)
Lemma irr_loop_all_positive (L H : Q) :
  (forall mid, L <= mid -> mid <= H -> 0 < test mid) ->
  forall (remaining iter : nat) (lo hi : Q),
    L <= lo -> lo <= hi -> hi <= H ->
    br_hi (loop remaining iter lo hi) = hi.
Proof.
  intros Hpos.
  induction remaining as [|remaining IH]; intros iter lo hi HL Hle HH.
  - reflexivity.
  - cbn [irr_loop]. cbv zeta.
    set (mid := (lo + hi) / 2).
    assert (Hmid : lo <= mid /\ mid <= hi) by (apply midpoint_between; exact Hle).
    destruct Hmid as [Hm1 Hm2].
    assert (T : gtb (test mid) 0 = true) by (apply gtb_true, Hpos; lra).
    rewrite T.
    destruct (ltb (Math_abs (hi - mid)) 0.0001); [reflexivity|].
    apply IH; lra.
Qed.

(** When it is positive at none, the lower end never moves. *)
Lemma irr_loop_none_positive (L H : Q) :
  (forall mid, L <= mid -> mid <= H -> test mid <= 0) ->
  forall (remaining iter : nat) (lo hi : Q),
    L <= lo -> lo <= hi -> hi <= H ->
    br_lo (loop remaining iter lo hi) = lo.
Proof.
  intros Hneg.
  induction remaining as [|remaining IH]; intros iter lo hi HL Hle HH.
  - reflexivity.
  - cbn [irr_loop]. cbv zeta.
    set (mid := (lo + hi) / 2).
    assert (Hmid : lo <= mid /\ mid <= hi) by (apply midpoint_between; exact Hle).
    destruct Hmid as [Hm1 Hm2].
    assert (T : gtb (test mid) 0 = false) by (apply gtb_false, Hneg; lra).
    rewrite T.
    destruct (ltb (Math_abs (mid - lo)) 0.0001); [reflexivity|].
    apply IH; lra.
Qed.

(** [IRR] is [null] when, and only when, an end of the final bracket is
    within 0.01 of where it started. *)
Lemma IRR_none_iff :
  IRR Math_pow Math_log src inputs = None
  <-> (Qabs (br_lo (irr_bracket Math_pow Math_log src inputs) - (-0.5)) <= 0.01
       \/ Qabs (br_hi (irr_bracket Math_pow Math_log src inputs) - 2.0) <= 0.01).
Proof.
  unfold IRR, Math_abs. cbv zeta.
  set (a := Qabs (br_lo _ - -0.5)). set (b := Qabs (br_hi _ - 2.0)).
  destruct (gtb a 0.01) eqn:A; destruct (gtb b 0.01) eqn:B; cbn [andb].
  - apply gtb_true in A, B. split; [discriminate|]. intros [H|H]; lra.
  - apply gtb_false in B. split; [now right|reflexivity].
  - apply gtb_false in A. split; [now left|reflexivity].
  - apply gtb_false in A. split; [now left|reflexivity].
Qed.

Lemma irr_bracket_stops :
  (br_iter (irr_bracket Math_pow Math_log src inputs) <= 100)%nat
  /\ ((br_iter (irr_bracket Math_pow Math_log src inputs) < 100)%nat ->
      Qabs (br_hi (irr_bracket Math_pow Math_log src inputs)
            - br_lo (irr_bracket Math_pow Math_log src inputs)) < 0.0001).
Proof.
  unfold irr_bracket.
  destruct (irr_loop_stops 100 0 (-0.5) 2.0) as (_ & S2 & S3).
  split; [exact S2|exact S3].
Qed.

Lemma irr_bracket_within :
  -0.5 <= br_lo (irr_bracket Math_pow Math_log src inputs)
  /\ br_lo (irr_bracket Math_pow Math_log src inputs)
     <= br_hi (irr_bracket Math_pow Math_log src inputs)
  /\ br_hi (irr_bracket Math_pow Math_log src inputs) <= 2.0.
Proof.
  unfold irr_bracket. apply irr_loop_bracket. lra.
Qed.

Lemma irr_bracket_all_positive :
  (forall mid, -0.5 <= mid -> mid <= 2.0 -> 0 < test mid) ->
  br_hi (irr_bracket Math_pow Math_log src inputs) = 2.0.
Proof.
  intro Hpos. unfold irr_bracket.
  apply (irr_loop_all_positive (-0.5) 2.0 Hpos); lra.
Qed.

Lemma irr_bracket_none_positive :
  (forall mid, -0.5 <= mid -> mid <= 2.0 -> test mid <= 0) ->
  br_lo (irr_bracket Math_pow Math_log src inputs) = -0.5.
Proof.
  intro Hneg. unfold irr_bracket.
  apply (irr_loop_none_positive (-0.5) 2.0 Hneg); lra.
Qed.

Lemma IRR_some_midpoint (m : Q) :
  IRR Math_pow Math_log src inputs = Some m ->
  m = (br_lo (irr_bracket Math_pow Math_log src inputs)
       + br_hi (irr_bracket Math_pow Math_log src inputs)) / 2.
Proof.
  unfold IRR. cbv zeta.
  destruct (_ && _); [|discriminate]. intro H. now injection H as <-.
Qed.

End IRRSolver.

(** C3, as stated, fails: [IRR] is [null] although only one end of the
    bracket is where it started.  Over a horizon of 0 years the default
    scenario has the single cash flow of the year [y = 0], which is negative:
    the test value is negative at every rate, the lower end stays at -0.5
    and the upper end comes down from 2.0 to -0.5 + 2.5 / 2^15. *)
Lemma IRR_null_after_upper_end_moved :
  exists res,
    runFinancialModel pow_ref log_ref App_jsx horizon_0_inputs = Some res
    /\ res_IRR res = None
    /\ br_lo (irr_bracket pow_ref log_ref App_jsx horizon_0_inputs) == -0.5
    /\ br_hi (irr_bracket pow_ref log_ref App_jsx horizon_0_inputs)
       == -0.5 + 2.5 / 32768
    /\ ~ (Qabs (br_lo (irr_bracket pow_ref log_ref App_jsx horizon_0_inputs) - (-0.5))
          <= 0.01
          /\ Qabs (br_hi (irr_bracket pow_ref log_ref App_jsx horizon_0_inputs) - 2.0)
             <= 0.01).
Proof.
  destruct (run_returns pow_ref log_ref App_jsx horizon_0_inputs) as [res E].
  { vm_compute. discriminate. }
  destruct (run_fields _ _ _ _ _ E) as (_ & _ & HI & _).
  exists res. split; [exact E|]. rewrite HI. unfold IRR. cbv zeta.
  set (b := irr_bracket pow_ref log_ref App_jsx horizon_0_inputs).
  vm_compute in b. subst b.
  split; [vm_compute; reflexivity|].
  split; [vm_compute; reflexivity|]. split; [vm_compute; reflexivity|].
  intros [_ H]. revert H. vm_compute. intro H. now apply H.
Qed.

(** C3, amended.  The IRR solver bisects the bracket [-0.5, 2.0] for at most
    100 iterations and leaves earlier only once the bracket is narrower than
    0.0001.  [IRR] is [null] exactly when at least one end of the final
    bracket is within 0.01 of where it started (-0.5 for the lower end, 2.0
    for the upper one), and the midpoint of the final bracket otherwise.  In
    particular it is [null] when the test value is positive at every rate of
    the bracket, and when it is positive at none.  The solver is total: it
    never throws. *)
Theorem IRR_null_iff_an_end_unmoved :
  forall (Math_pow : Q -> Q -> Q) (Math_log : Q -> Q) (src : source_file)
         (inputs : ModelInputs),
    let b := irr_bracket Math_pow Math_log src inputs in
    (br_iter b <= 100)%nat
    /\ ((br_iter b < 100)%nat -> Qabs (br_hi b - br_lo b) < 0.0001)
    /\ (-0.5 <= br_lo b /\ br_lo b <= br_hi b /\ br_hi b <= 2.0)
    /\ (IRR Math_pow Math_log src inputs = None
        <-> (Qabs (br_lo b - (-0.5)) <= 0.01 \/ Qabs (br_hi b - 2.0) <= 0.01))
    /\ (forall m, IRR Math_pow Math_log src inputs = Some m ->
                  m = (br_lo b + br_hi b) / 2)
    /\ ((forall mid, -0.5 <= mid -> mid <= 2.0 ->
                     0 < irr_npv_test Math_pow Math_log src inputs mid) ->
        IRR Math_pow Math_log src inputs = None)
    /\ ((forall mid, -0.5 <= mid -> mid <= 2.0 ->
                     irr_npv_test Math_pow Math_log src inputs mid <= 0) ->
        IRR Math_pow Math_log src inputs = None)
    /\ (forall res,
           runFinancialModel Math_pow Math_log src inputs = Some res ->
           res_IRR res = IRR Math_pow Math_log src inputs).
Proof.
  intros Math_pow Math_log src inputs b. subst b.
  destruct (irr_bracket_stops Math_pow Math_log src inputs) as (S2 & S3).
  split; [exact S2|]. split; [exact S3|].
  split; [apply irr_bracket_within|].
  split; [apply IRR_none_iff|]. split; [apply IRR_some_midpoint|].
  split; [|split].
  - intro Hpos. apply IRR_none_iff. right.
    rewrite (irr_bracket_all_positive _ _ _ _ Hpos).
    vm_compute. discriminate.
  - intro Hneg. apply IRR_none_iff. left.
    rewrite (irr_bracket_none_positive _ _ _ _ Hneg).
    vm_compute. discriminate.
  - intros res H. now destruct (run_fields _ _ _ _ _ H) as (_ & _ & E & _).
Qed.
(** ** The sensitivity sweep (C7) *)

Section SortFacts.

Context {A : Type} (f : A -> Q).

Local Notation "'cmp'" := (fun a b : A => f b - f a).
Local Notation "'desc'" := (fun a b : A => f b <= f a).

Lemma sort_insert_perm (a : A) (l : list A) :
  Permutation (sort_insert cmp a l) (a :: l).
Proof.
  induction l as [|b l IH]; simpl; [reflexivity|].
  destruct (gtb (f b - f a) 0); [|reflexivity].
  rewrite IH. apply perm_swap.
Qed.

Lemma Array_sort_perm (l : list A) : Permutation (Array_sort cmp l) l.
Proof.
  induction l as [|a l IH]; simpl; [reflexivity|].
  rewrite sort_insert_perm. now apply perm_skip.
Qed.



End SortFacts.

Lemma set_field_same (inputs : ModelInputs) (k : key) (v : Q) :
  field (set_field inputs k v) k = v.
Proof.
  simpl. destruct (key_eq_dec k k); [reflexivity|congruence].
Qed.

Lemma set_field_other (inputs : ModelInputs) (k k' : key) (v : Q) :
  k <> k' -> field (set_field inputs k v) k' = field inputs k'.
Proof.
  intro H. simpl. destruct (key_eq_dec k k'); [congruence|reflexivity].
Qed.


(** * Further properties of the engine *)

(** ** The two bisections run a fixed number of iterations *)

Lemma ltb_compat (a a' b : Q) : a == a' -> ltb a b = ltb a' b.
Proof. intro E. unfold ltb. now rewrite E. Qed.

Lemma gtb_compat (a a' b : Q) : a == a' -> gtb a b = gtb a' b.
Proof. intro E. unfold gtb. now rewrite E. Qed.

Lemma geb_compat (a a' b : Q) : a == a' -> geb a b = geb a' b.
Proof. intro E. unfold geb. now rewrite E. Qed.

Lemma half_width_upper (lo hi : Q) : hi - (lo + hi) / 2 == (hi - lo) / 2.
Proof. unfold Qdiv. change (/ 2) with (1 # 2). ring. Qed.

Lemma half_width_lower (lo hi : Q) : (lo + hi) / 2 - lo == (hi - lo) / 2.
Proof. unfold Qdiv. change (/ 2) with (1 # 2). ring. Qed.

Lemma halvings_compat (tol : Q) (remaining : nat) :
  forall w w', w == w' -> halvings tol remaining w = halvings tol remaining w'.
Proof.
  induction remaining as [|remaining IH]; intros w w' E; cbn [halvings]; [reflexivity|].
  assert (E2 : w / 2 == w' / 2) by now rewrite E.
  rewrite (ltb_compat _ (Math_abs (w' / 2))) by (unfold Math_abs; apply Qabs_wd; exact E2).
  destruct (ltb (Math_abs (w' / 2)) tol); [reflexivity|].
  f_equal. now apply IH.
Qed.

Lemma halved_compat (n : nat) : forall w w', w == w' -> halved n w == halved n w'.
Proof.
  induction n as [|n IH]; intros w w' E; cbn [halved]; [exact E|].
  apply IH. now rewrite E.
Qed.

Section BisectionCounts.

Variable Math_pow : Q -> Q -> Q.
Variable Math_log : Q -> Q.
Variable src : source_file.
Variable inputs : ModelInputs.

Lemma irr_loop_count :
  forall (remaining iter : nat) (lo hi : Q),
    let b := irr_loop Math_pow Math_log src inputs remaining iter lo hi in
    br_iter b = (iter + halvings 0.0001 remaining (hi - lo))%nat
    /\ br_hi b - br_lo b == halved (halvings 0.0001 remaining (hi - lo)) (hi - lo).
Proof.
  induction remaining as [|remaining IH]; intros iter lo hi.
  - simpl. split; [lia|reflexivity].
  - cbn [irr_loop halvings]. cbv zeta.
    set (mid := (lo + hi) / 2).
    set (t := gtb (irr_npv_test Math_pow Math_log src inputs mid) 0).
    assert (W : (if t then hi else mid) - (if t then mid else lo) == (hi - lo) / 2).
    { destruct t; [apply half_width_upper|apply half_width_lower]. }
    rewrite (ltb_compat _ (Math_abs ((hi - lo) / 2)))
      by (unfold Math_abs; apply Qabs_wd; exact W).
    destruct (ltb (Math_abs ((hi - lo) / 2)) 0.0001).
    + cbn [br_iter br_hi br_lo halved]. split; [lia|exact W].
    + specialize (IH (S iter) (if t then mid else lo) (if t then hi else mid)).
      cbv zeta in IH. destruct IH as [I1 I2].
      rewrite (halvings_compat _ _ _ _ W) in I1, I2.
      split; [rewrite I1; lia|].
      rewrite I2. cbn [halved]. now apply halved_compat.
Qed.

Lemma breakeven_loop_count :
  forall (remaining iter : nat) (lo hi : Q),
    let b := breakeven_loop Math_pow Math_log src inputs remaining iter lo hi in
    br_iter b = (iter + halvings 0.5 remaining (hi - lo))%nat
    /\ br_hi b - br_lo b == halved (halvings 0.5 remaining (hi - lo)) (hi - lo).
Proof.
  induction remaining as [|remaining IH]; intros iter lo hi.
  - simpl. split; [lia|reflexivity].
  - cbn [breakeven_loop halvings]. cbv zeta.
    set (mid := (lo + hi) / 2).
    set (t := ltb (breakeven_npv_test Math_pow Math_log src inputs mid) 0).
    assert (W : (if t then hi else mid) - (if t then mid else lo) == (hi - lo) / 2).
    { destruct t; [apply half_width_upper|apply half_width_lower]. }
    rewrite (ltb_compat _ (Math_abs ((hi - lo) / 2)))
      by (unfold Math_abs; apply Qabs_wd; exact W).
    destruct (ltb (Math_abs ((hi - lo) / 2)) 0.5).
    + cbn [br_iter br_hi br_lo halved]. split; [lia|exact W].
    + specialize (IH (S iter) (if t then mid else lo) (if t then hi else mid)).
      cbv zeta in IH. destruct IH as [I1 I2].
      rewrite (halvings_compat _ _ _ _ W) in I1, I2.
      split; [rewrite I1; lia|].
      rewrite I2. cbn [halved]. now apply halved_compat.
Qed.

(** The ends of the IRR bracket are the initial ends or rates at which the
    test value has the sign that moved them there. *)
Lemma irr_loop_signs (L H : Q) :
  forall (remaining iter : nat) (lo hi : Q),
    (lo = L \/ 0 < irr_npv_test Math_pow Math_log src inputs lo) ->
    (hi = H \/ irr_npv_test Math_pow Math_log src inputs hi <= 0) ->
    let b := irr_loop Math_pow Math_log src inputs remaining iter lo hi in
    (br_lo b = L \/ 0 < irr_npv_test Math_pow Math_log src inputs (br_lo b))
    /\ (br_hi b = H \/ irr_npv_test Math_pow Math_log src inputs (br_hi b) <= 0).
Proof.
  induction remaining as [|remaining IH]; intros iter lo hi Hlo Hhi.
  - simpl. now split.
  - cbn [irr_loop]. cbv zeta.
    set (mid := (lo + hi) / 2).
    destruct (gtb (irr_npv_test Math_pow Math_log src inputs mid) 0) eqn:T.
    + apply gtb_true in T.
      destruct (ltb (Math_abs (hi - mid)) 0.0001).
      * simpl. split; [now right|exact Hhi].
      * apply IH; [now right|exact Hhi].
    + apply gtb_false in T.
      destruct (ltb (Math_abs (mid - lo)) 0.0001).
      * simpl. split; [exact Hlo|now right].
      * apply IH; [exact Hlo|now right].
Qed.

Lemma breakeven_loop_signs (L H : Q) :
  forall (remaining iter : nat) (lo hi : Q),
    (lo = L \/ breakeven_npv_test Math_pow Math_log src inputs lo < 0) ->
    (hi = H \/ 0 <= breakeven_npv_test Math_pow Math_log src inputs hi) ->
    let b := breakeven_loop Math_pow Math_log src inputs remaining iter lo hi in
    (br_lo b = L \/ breakeven_npv_test Math_pow Math_log src inputs (br_lo b) < 0)
    /\ (br_hi b = H \/ 0 <= breakeven_npv_test Math_pow Math_log src inputs (br_hi b)).
Proof.
  induction remaining as [|remaining IH]; intros iter lo hi Hlo Hhi.
  - simpl. now split.
  - cbn [breakeven_loop]. cbv zeta.
    set (mid := (lo + hi) / 2).
    destruct (ltb (breakeven_npv_test Math_pow Math_log src inputs mid) 0) eqn:T.
    + apply ltb_true in T.
      destruct (ltb (Math_abs (hi - mid)) 0.5).
      * simpl. split; [now right|exact Hhi].
      * apply IH; [now right|exact Hhi].
    + apply ltb_false in T.
      destruct (ltb (Math_abs (mid - lo)) 0.5).
      * simpl. split; [exact Hlo|now right].
      * apply IH; [exact Hlo|now right].
Qed.

(** When the test value is negative at every price of the bracket the upper
    end never moves, and when it is negative at none the lower end never
    moves. *)
Lemma breakeven_loop_all_negative (L H : Q) :
  (forall mid, L <= mid -> mid <= H ->
               breakeven_npv_test Math_pow Math_log src inputs mid < 0) ->
  forall (remaining iter : nat) (lo hi : Q),
    L <= lo -> lo <= hi -> hi <= H ->
    br_hi (breakeven_loop Math_pow Math_log src inputs remaining iter lo hi) = hi.
Proof.
  intros Hneg.
  induction remaining as [|remaining IH]; intros iter lo hi HL Hle HH.
  - reflexivity.
  - cbn [breakeven_loop]. cbv zeta.
    set (mid := (lo + hi) / 2).
    destruct (midpoint_between _ _ Hle) as [Hm1 Hm2]. fold mid in Hm1, Hm2.
    assert (T : ltb (breakeven_npv_test Math_pow Math_log src inputs mid) 0 = true)
      by (apply ltb_true, Hneg; lra).
    rewrite T.
    destruct (ltb (Math_abs (hi - mid)) 0.5); [reflexivity|].
    apply IH; lra.
Qed.

Lemma breakeven_loop_none_negative (L H : Q) :
  (forall mid, L <= mid -> mid <= H ->
               0 <= breakeven_npv_test Math_pow Math_log src inputs mid) ->
  forall (remaining iter : nat) (lo hi : Q),
    L <= lo -> lo <= hi -> hi <= H ->
    br_lo (breakeven_loop Math_pow Math_log src inputs remaining iter lo hi) = lo.
Proof.
  intros Hpos.
  induction remaining as [|remaining IH]; intros iter lo hi HL Hle HH.
  - reflexivity.
  - cbn [breakeven_loop]. cbv zeta.
    set (mid := (lo + hi) / 2).
    destruct (midpoint_between _ _ Hle) as [Hm1 Hm2]. fold mid in Hm1, Hm2.
    assert (T : ltb (breakeven_npv_test Math_pow Math_log src inputs mid) 0 = false)
      by (apply ltb_false, Hpos; lra).
    rewrite T.
    destruct (ltb (Math_abs (mid - lo)) 0.5); [reflexivity|].
    apply IH; lra.
Qed.

(** The final brackets. *)
Lemma irr_bracket_shape :
  br_iter (irr_bracket Math_pow Math_log src inputs) = 15%nat
  /\ br_hi (irr_bracket Math_pow Math_log src inputs)
     - br_lo (irr_bracket Math_pow Math_log src inputs) == 2.5 / 32768.
Proof.
  unfold irr_bracket.
  destruct (irr_loop_count 100 0 (-0.5) 2.0) as [H1 H2].
  assert (E : halvings 0.0001 100 (2.0 - -0.5) = 15%nat) by (vm_compute; reflexivity).
  rewrite E in H1, H2. split; [exact H1|].
  rewrite H2. vm_compute. reflexivity.
Qed.

Lemma breakeven_bracket_shape :
  br_iter (breakeven_bracket Math_pow Math_log src inputs) = 10%nat
  /\ br_hi (breakeven_bracket Math_pow Math_log src inputs)
     - br_lo (breakeven_bracket Math_pow Math_log src inputs) == 300 / 1024.
Proof.
  unfold breakeven_bracket.
  destruct (breakeven_loop_count 80 0 0 300) as [H1 H2].
  assert (E : halvings 0.5 80 (300 - 0) = 10%nat) by (vm_compute; reflexivity).
  rewrite E in H1, H2. split; [exact H1|].
  rewrite H2. vm_compute. reflexivity.
Qed.

End BisectionCounts.

(** X1.  The IRR loop always runs exactly 15 iterations, whatever the cash
    flows: every iteration halves the bracket, of width 2.5 at the start,
    and the first width below 0.0001 is 2.5 / 2^15.  The budget of 100
    iterations is never used up. *)
Theorem irr_runs_15_iterations :
  forall (Math_pow : Q -> Q -> Q) (Math_log : Q -> Q) (src : source_file)
         (inputs : ModelInputs),
    let b := irr_bracket Math_pow Math_log src inputs in
    br_iter b = 15%nat
    /\ br_hi b - br_lo b == 2.5 / 32768
    /\ Qabs (br_hi b - br_lo b) < 0.0001.
Proof.
  intros Math_pow Math_log src inputs b. subst b.
  destruct (irr_bracket_shape Math_pow Math_log src inputs) as [H1 H2].
  split; [exact H1|]. split; [exact H2|].
  rewrite H2. vm_compute. reflexivity.
Qed.

(** X2.  A numeric IRR is the midpoint of a bracket with a sign change:
    the test NPV is positive at the lower end and not positive at the upper
    end, the two ends are 2.5 / 2^15 apart, and the IRR lies strictly
    between them. *)
Theorem irr_brackets_a_sign_change :
  forall (Math_pow : Q -> Q -> Q) (Math_log : Q -> Q) (src : source_file)
         (inputs : ModelInputs) (m : Q),
    IRR Math_pow Math_log src inputs = Some m ->
    let b := irr_bracket Math_pow Math_log src inputs in
    0 < irr_npv_test Math_pow Math_log src inputs (br_lo b)
    /\ irr_npv_test Math_pow Math_log src inputs (br_hi b) <= 0
    /\ br_hi b - br_lo b == 2.5 / 32768
    /\ br_lo b < m /\ m < br_hi b.
Proof.
  intros Math_pow Math_log src inputs m Hm b. subst b.
  destruct (irr_bracket_shape Math_pow Math_log src inputs) as [_ HW].
  assert (Hnn : IRR Math_pow Math_log src inputs <> None) by congruence.
  pose proof (IRR_some_midpoint _ _ _ _ _ Hm) as Emid.
  assert (S : (br_lo (irr_bracket Math_pow Math_log src inputs) = -0.5
               \/ 0 < irr_npv_test Math_pow Math_log src inputs
                        (br_lo (irr_bracket Math_pow Math_log src inputs)))
              /\ (br_hi (irr_bracket Math_pow Math_log src inputs) = 2.0
                  \/ irr_npv_test Math_pow Math_log src inputs
                       (br_hi (irr_bracket Math_pow Math_log src inputs)) <= 0)).
  { unfold irr_bracket. apply irr_loop_signs; now left. }
  destruct S as [Slo Shi].
  set (lo := br_lo (irr_bracket Math_pow Math_log src inputs)) in *.
  set (hi := br_hi (irr_bracket Math_pow Math_log src inputs)) in *.
  assert (W : hi - lo == 2.5 / 32768) by exact HW.
  assert (Wv : 2.5 / 32768 == 5 # 65536) by (vm_compute; reflexivity).
  rewrite Wv in W.
  split; [|split; [|split; [rewrite Wv; exact W|]]].
  - destruct Slo as [E|P]; [|exact P].
    exfalso. apply Hnn. apply IRR_none_iff. left. fold lo. rewrite E.
    vm_compute. discriminate.
  - destruct Shi as [E|P]; [|exact P].
    exfalso. apply Hnn. apply IRR_none_iff. right. fold hi. rewrite E.
    vm_compute. discriminate.
  - rewrite Emid. unfold Qdiv. change (/ 2) with (1 # 2). split; lra.
Qed.

Lemma irr_brackets_a_sign_change_witness :
  exists m,
    IRR pow_ref log_ref part_000 two_year_inputs = Some m
    /\ 0 < irr_npv_test pow_ref log_ref part_000 two_year_inputs
             (br_lo (irr_bracket pow_ref log_ref part_000 two_year_inputs))
    /\ br_lo (irr_bracket pow_ref log_ref part_000 two_year_inputs) < m
    /\ m < br_hi (irr_bracket pow_ref log_ref part_000 two_year_inputs).
Proof.
  destruct (IRR pow_ref log_ref part_000 two_year_inputs) as [m|] eqn:E.
  - exists m. split; [reflexivity|].
    destruct (irr_brackets_a_sign_change pow_ref log_ref part_000 two_year_inputs m E)
      as (H1 & _ & _ & H4 & H5).
    split; [exact H1|]. split; [exact H4|exact H5].
  - exfalso. revert E. vm_compute. discriminate.
Defined.

(** X3.  The breakeven loop always runs exactly 10 iterations and ends with
    a bracket 300 / 1024 wide, so [CR_breakeven] never is an end of the
    search range: it lies between 300 / 2048 and 300 - 300 / 2048.  Each end
    of the final bracket is the initial end or a price at which the test
    NPV has the sign that moved it there; when the test NPV is negative at
    0 and not negative at 300, the final bracket holds a sign change. *)
Theorem breakeven_bracket_after_10_iterations :
  forall (Math_pow : Q -> Q -> Q) (Math_log : Q -> Q) (src : source_file)
         (inputs : ModelInputs),
    let b := breakeven_bracket Math_pow Math_log src inputs in
    let test := breakeven_npv_test Math_pow Math_log src inputs in
    br_iter b = 10%nat
    /\ br_hi b - br_lo b == 300 / 1024
    /\ (exists p, CR_breakeven Math_pow Math_log src inputs = Some p
                  /\ 300 / 2048 <= p /\ p <= 300 - 300 / 2048)
    /\ (br_lo b = 0 \/ test (br_lo b) < 0)
    /\ (br_hi b = 300 \/ 0 <= test (br_hi b))
    /\ (test 0 < 0 -> 0 <= test 300 ->
        test (br_lo b) < 0 /\ 0 <= test (br_hi b)).
Proof.
  intros Math_pow Math_log src inputs b test. subst b test.
  destruct (breakeven_bracket_shape Math_pow Math_log src inputs) as [H1 HW].
  assert (Inv : 0 <= br_lo (breakeven_bracket Math_pow Math_log src inputs)
                /\ br_lo (breakeven_bracket Math_pow Math_log src inputs)
                   <= br_hi (breakeven_bracket Math_pow Math_log src inputs)
                /\ br_hi (breakeven_bracket Math_pow Math_log src inputs) <= 300).
  { unfold breakeven_bracket.
    destruct (breakeven_loop_invariant Math_pow Math_log src inputs 300 80 0 0 300)
      as (A & B & C & _); [lra|lra|lra|].
    split; [exact A|]. split; [exact B|exact C]. }
  assert (S : (br_lo (breakeven_bracket Math_pow Math_log src inputs) = 0
               \/ breakeven_npv_test Math_pow Math_log src inputs
                    (br_lo (breakeven_bracket Math_pow Math_log src inputs)) < 0)
              /\ (br_hi (breakeven_bracket Math_pow Math_log src inputs) = 300
                  \/ 0 <= breakeven_npv_test Math_pow Math_log src inputs
                            (br_hi (breakeven_bracket Math_pow Math_log src inputs)))).
  { unfold breakeven_bracket. apply breakeven_loop_signs; now left. }
  destruct S as [Slo Shi]. destruct Inv as (I0 & I1 & I2).
  unfold CR_breakeven.
  set (lo := br_lo (breakeven_bracket Math_pow Math_log src inputs)) in *.
  set (hi := br_hi (breakeven_bracket Math_pow Math_log src inputs)) in *.
  assert (Wv : 300 / 1024 == 300 # 1024) by (vm_compute; reflexivity).
  assert (W : hi - lo == 300 # 1024) by (rewrite <- Wv; exact HW).
  split; [exact H1|]. split; [exact HW|].
  split; [|split; [exact Slo|split; [exact Shi|]]].
  - eexists. split; [reflexivity|].
    assert (V1 : 300 / 2048 == 300 # 2048) by (vm_compute; reflexivity).
    rewrite V1. unfold Qdiv. change (/ 2) with (1 # 2). split; lra.
  - intros T0 T300. split.
    + destruct Slo as [E|P]; [rewrite E; exact T0|exact P].
    + destruct Shi as [E|P]; [rewrite E; exact T300|exact P].
Qed.

Lemma breakeven_bracket_after_10_iterations_witness :
  breakeven_npv_test pow_ref log_ref part_000 breakeven_inputs
    (br_lo (breakeven_bracket pow_ref log_ref part_000 breakeven_inputs)) < 0
  /\ 0 <= breakeven_npv_test pow_ref log_ref part_000 breakeven_inputs
            (br_hi (breakeven_bracket pow_ref log_ref part_000 breakeven_inputs)).
Proof.
  destruct (breakeven_bracket_after_10_iterations pow_ref log_ref part_000 breakeven_inputs)
    as (_ & _ & _ & _ & _ & H).
  apply H.
  - vm_compute. reflexivity.
  - vm_compute. discriminate.
Defined.

(** Without a sign change the breakeven price saturates. *)
Lemma breakeven_saturation :
  forall (Math_pow : Q -> Q -> Q) (Math_log : Q -> Q) (src : source_file)
         (inputs : ModelInputs),
    let test := breakeven_npv_test Math_pow Math_log src inputs in
    ((forall mid, 0 <= mid -> mid <= 300 -> test mid < 0) ->
     exists p, CR_breakeven Math_pow Math_log src inputs = Some p
               /\ p == 300 - 300 / 2048)
    /\ ((forall mid, 0 <= mid -> mid <= 300 -> 0 <= test mid) ->
        exists p, CR_breakeven Math_pow Math_log src inputs = Some p
                  /\ p == 300 / 2048).
Proof.
  intros Math_pow Math_log src inputs test. subst test.
  destruct (breakeven_bracket_shape Math_pow Math_log src inputs) as [_ HW].
  assert (Wv : 300 / 1024 == 300 # 1024) by (vm_compute; reflexivity).
  assert (V1 : 300 / 2048 == 300 # 2048) by (vm_compute; reflexivity).
  rewrite Wv in HW. unfold CR_breakeven.
  split; intro H.
  - assert (E : br_hi (breakeven_bracket Math_pow Math_log src inputs) = 300).
    { unfold breakeven_bracket.
      apply (breakeven_loop_all_negative Math_pow Math_log src inputs 0 300 H); lra. }
    eexists. split; [reflexivity|]. rewrite E in *. rewrite V1.
    unfold Qdiv. change (/ 2) with (1 # 2). lra.
  - assert (E : br_lo (breakeven_bracket Math_pow Math_log src inputs) = 0).
    { unfold breakeven_bracket.
      apply (breakeven_loop_none_negative Math_pow Math_log src inputs 0 300 H); lra. }
    eexists. split; [reflexivity|]. rewrite E in *. rewrite V1.
    unfold Qdiv. change (/ 2) with (1 # 2). lra.
Qed.

(** Sums of terms that are equal as rationals. *)
Lemma fold_sum_compat {A : Type} (f g : A -> Q) (l : list A) :
  (forall x, In x l -> f x == g x) ->
  forall a b, a == b ->
    fold_left (fun acc x => acc + f x) l a == fold_left (fun acc x => acc + g x) l b.
Proof.
  induction l as [|x l IH]; intros Hfg a b E; simpl; [exact E|].
  apply IH.
  - intros y Hy. apply Hfg. now right.
  - rewrite E, (Hfg x) by now left. reflexivity.
Qed.

(** With no 45Q allocation the test NPV of the breakeven loop does not
    depend on the price. *)
Lemma breakeven_test_independent (Math_pow : Q -> Q -> Q) (Math_log : Q -> Q)
    (src : source_file) (inputs : ModelInputs) :
  field inputs f_45Q == 0 ->
  forall mid,
    breakeven_npv_test Math_pow Math_log src inputs mid
    == breakeven_npv_test Math_pow Math_log src inputs 0.
Proof.
  intros H mid. unfold breakeven_npv_test.
  apply fold_sum_compat; [|reflexivity].
  intros yr _. cbv zeta.
  destruct (match src with
            | App_jsx => yr_is_45Q_eligible yr && leb (yr_y yr) (field inputs T_45Q)
            | part_000 => leb (yr_y yr) (field inputs T_45Q)
            end); [|reflexivity].
  rewrite H. apply Qdiv_comp; [ring|reflexivity].
Qed.

(** X4.  Without a sign change the breakeven price saturates: when the test
    NPV is negative at every price of [0, 300] the result is
    300 - 300 / 2048, the midpoint of the last bracket below 300, and when
    it is negative at none the result is 300 / 2048.  That is the case
    whenever the 45Q allocation [f_45Q] is 0: the test NPV then does not
    depend on the price, and the result only tells its sign. *)
Theorem breakeven_saturates :
  forall (Math_pow : Q -> Q -> Q) (Math_log : Q -> Q) (src : source_file)
         (inputs : ModelInputs),
    let test := breakeven_npv_test Math_pow Math_log src inputs in
    ((forall mid, 0 <= mid -> mid <= 300 -> test mid < 0) ->
     exists p, CR_breakeven Math_pow Math_log src inputs = Some p
               /\ p == 300 - 300 / 2048)
    /\ ((forall mid, 0 <= mid -> mid <= 300 -> 0 <= test mid) ->
        exists p, CR_breakeven Math_pow Math_log src inputs = Some p
                  /\ p == 300 / 2048)
    /\ (field inputs f_45Q == 0 ->
        (forall mid, test mid == test 0)
        /\ exists p, CR_breakeven Math_pow Math_log src inputs = Some p
                     /\ (if ltb (test 0) 0
                         then p == 300 - 300 / 2048
                         else p == 300 / 2048)).
Proof.
  intros Math_pow Math_log src inputs test. subst test.
  destruct (breakeven_saturation Math_pow Math_log src inputs) as [Hneg Hpos].
  split; [exact Hneg|]. split; [exact Hpos|].
  intro Hf.
  pose proof (breakeven_test_independent Math_pow Math_log src inputs Hf) as Hind.
  split; [exact Hind|].
  destruct (ltb (breakeven_npv_test Math_pow Math_log src inputs 0) 0) eqn:T.
  - apply ltb_true in T. apply Hneg. intros mid _ _. now rewrite Hind.
  - apply ltb_false in T. apply Hpos. intros mid _ _. now rewrite Hind.
Qed.

Lemma breakeven_saturates_witness :
  exists p, CR_breakeven pow_ref log_ref part_000 two_year_inputs = Some p
            /\ p == 300 - 300 / 2048.
Proof.
  destruct (breakeven_saturates pow_ref log_ref part_000 two_year_inputs)
    as (_ & _ & H).
  destruct H as (_ & p & Hp & E).
  - vm_compute. reflexivity.
  - exists p. split; [exact Hp|].
    assert (T : ltb (breakeven_npv_test pow_ref log_ref part_000 two_year_inputs 0) 0
                = true) by (vm_compute; reflexivity).
    rewrite T in E. exact E.
Defined.

(** ** Payback *)

Section Payback.

Variable Math_pow : Q -> Q -> Q.
Variable Math_log : Q -> Q.
Variable src : source_file.
Variable inputs : ModelInputs.

Local Notation "'step'" := (fun st y => year_step Math_pow Math_log src inputs y st).
Local Notation "'recs'" := (records Math_pow Math_log src inputs).

Lemma sim_payback_disc (l : list Q) :
  forall st,
    st_payback_disc (fold_left step l st)
    = match st_payback_disc st with
      | Some p => Some p
      | None => option_map yr_y (find crosses_disc (recs l (st_cumulative_dcf st)))
      end.
Proof.
  induction l as [|y l IH]; intro st; simpl.
  - now destruct (st_payback_disc st).
  - rewrite IH. cbn [st_payback_disc st_cumulative_dcf year_step].
    unfold crosses_disc at 2. cbn [yr_cumulative_dcf yr_y year_record].
    destruct (st_payback_disc st) as [p|]; [reflexivity|].
    destruct (geb (st_cumulative_dcf st + DCF Math_pow Math_log src inputs y) 0
              && gtb y 0); reflexivity.
Qed.

Lemma sim_payback_simple (l : list Q) :
  forall st,
    st_payback_simple (fold_left step l st)
    = match st_payback_simple st with
      | Some p => Some p
      | None =>
          option_map fst
            (find crosses_simple
                  (running_cf (recs l (st_cumulative_dcf st))
                              (st_cumulative_cf_undiscounted st)))
      end.
Proof.
  induction l as [|y l IH]; intro st; simpl.
  - now destruct (st_payback_simple st).
  - rewrite IH.
    cbn [st_payback_simple st_cumulative_dcf st_cumulative_cf_undiscounted year_step].
    cbn [yr_CF yr_y year_record]. unfold crosses_simple at 2. cbn [fst snd].
    destruct (st_payback_simple st) as [p|]; [reflexivity|].
    destruct (geb (st_cumulative_cf_undiscounted st + CF Math_pow Math_log src inputs y) 0
              && gtb y 0); reflexivity.
Qed.

Lemma payback_disc_find :
  st_payback_disc (simulation Math_pow Math_log src inputs)
  = option_map yr_y (find crosses_disc (years Math_pow Math_log src inputs)).
Proof.
  rewrite simulation_fold, sim_payback_disc, years_records. reflexivity.
Qed.

Lemma payback_simple_find :
  st_payback_simple (simulation Math_pow Math_log src inputs)
  = option_map fst
      (find crosses_simple (running_cf (years Math_pow Math_log src inputs) 0)).
Proof.
  rewrite simulation_fold, sim_payback_simple, years_records. reflexivity.
Qed.

End Payback.

(** What [find] finds is the first element that passes the test. *)
Lemma find_first {A : Type} (f : A -> bool) (l : list A) :
  match find f l with
  | Some x => exists front back,
                l = front ++ x :: back /\ f x = true
                /\ Forall (fun e => f e = false) front
  | None => Forall (fun e => f e = false) l
  end.
Proof.
  induction l as [|a l IH]; simpl; [constructor|].
  destruct (f a) eqn:E.
  - exists [], l. repeat split; [exact E|constructor].
  - destruct (find f l) as [x|].
    + destruct IH as (front & back & -> & Hx & Hfront).
      exists (a :: front), back. repeat split; [exact Hx|].
      constructor; assumption.
    + constructor; assumption.
Qed.

(** X5.  The discounted payback is the year offset of the first record,
    the year [y = 0] left out, whose cumulative discounted cash flow is not
    negative: every record before it is the year 0 or has a negative
    cumulative value.  It is [null] when there is no such record, and it is
    never the year 0. *)
Theorem payback_disc_is_first_crossing :
  forall (Math_pow : Q -> Q -> Q) (Math_log : Q -> Q) (src : source_file)
         (inputs : ModelInputs) (res : ModelResult),
    runFinancialModel Math_pow Math_log src inputs = Some res ->
    match res_payback_disc res with
    | Some p =>
        exists front yr back,
          res_years res = front ++ yr :: back
          /\ yr_y yr = p /\ 0 < p /\ 0 <= yr_cumulative_dcf yr
          /\ Forall (fun e => yr_cumulative_dcf e < 0 \/ yr_y e <= 0) front
    | None =>
        Forall (fun e => yr_cumulative_dcf e < 0 \/ yr_y e <= 0) (res_years res)
    end.
Proof.
  intros Math_pow Math_log src inputs res Hrun.
  destruct (run_fields _ _ _ _ _ Hrun) as (Hy & _).
  assert (Hp : res_payback_disc res
               = st_payback_disc (simulation Math_pow Math_log src inputs)).
  { unfold runFinancialModel in Hrun.
    destruct (yr1 Math_pow Math_log src inputs); [|discriminate].
    now injection Hrun as <-. }
  rewrite Hp, payback_disc_find, Hy.
  assert (Neg : forall e, crosses_disc e = false ->
                          yr_cumulative_dcf e < 0 \/ yr_y e <= 0).
  { intros e H. unfold crosses_disc in H. apply andb_false_iff in H.
    destruct H as [H|H]; [left; now apply geb_false|right; now apply gtb_false]. }
  pose proof (find_first crosses_disc (years Math_pow Math_log src inputs)) as F.
  destruct (find crosses_disc (years Math_pow Math_log src inputs)) as [yr|]; simpl.
  - destruct F as (front & back & E & Hx & Hfront).
    exists front, yr, back. unfold crosses_disc in Hx.
    apply andb_true_iff in Hx. destruct Hx as [H1 H2].
    apply geb_true in H1. apply gtb_true in H2.
    split; [exact E|]. split; [reflexivity|]. split; [exact H2|]. split; [exact H1|].
    eapply Forall_impl; [|exact Hfront]. exact Neg.
  - eapply Forall_impl; [|exact F]. exact Neg.
Qed.

Lemma payback_disc_is_first_crossing_witness :
  exists res,
    runFinancialModel pow_ref log_ref part_000 two_year_inputs = Some res
    /\ match res_payback_disc res with
       | Some p =>
           exists front yr back,
             res_years res = front ++ yr :: back
             /\ yr_y yr = p /\ 0 < p /\ 0 <= yr_cumulative_dcf yr
             /\ Forall (fun e => yr_cumulative_dcf e < 0 \/ yr_y e <= 0) front
       | None =>
           Forall (fun e => yr_cumulative_dcf e < 0 \/ yr_y e <= 0) (res_years res)
       end.
Proof.
  destruct (run_returns pow_ref log_ref part_000 two_year_inputs) as [res E].
  { vm_compute. discriminate. }
  exists res. split; [exact E|].
  exact (payback_disc_is_first_crossing pow_ref log_ref part_000 two_year_inputs res E).
Defined.

(** X6.  The simple payback is the year offset of the first year, the year
    [y = 0] left out, at which the running sum of the undiscounted cash
    flows is not negative; it is found independently of the discounted
    payback, and is [null] when the sum stays negative. *)
Theorem payback_simple_is_first_crossing :
  forall (Math_pow : Q -> Q -> Q) (Math_log : Q -> Q) (src : source_file)
         (inputs : ModelInputs) (res : ModelResult),
    runFinancialModel Math_pow Math_log src inputs = Some res ->
    match res_payback_simple res with
    | Some p =>
        exists front sum back,
          running_cf (res_years res) 0 = front ++ (p, sum) :: back
          /\ 0 < p /\ 0 <= sum
          /\ Forall (fun e => snd e < 0 \/ fst e <= 0) front
    | None =>
        Forall (fun e => snd e < 0 \/ fst e <= 0) (running_cf (res_years res) 0)
    end.
Proof.
  intros Math_pow Math_log src inputs res Hrun.
  destruct (run_fields _ _ _ _ _ Hrun) as (Hy & _).
  assert (Hp : res_payback_simple res
               = st_payback_simple (simulation Math_pow Math_log src inputs)).
  { unfold runFinancialModel in Hrun.
    destruct (yr1 Math_pow Math_log src inputs); [|discriminate].
    now injection Hrun as <-. }
  rewrite Hp, payback_simple_find, Hy.
  assert (Neg : forall e, crosses_simple e = false -> snd e < 0 \/ fst e <= 0).
  { intros e H. unfold crosses_simple in H. apply andb_false_iff in H.
    destruct H as [H|H]; [left; now apply geb_false|right; now apply gtb_false]. }
  pose proof (find_first crosses_simple
                (running_cf (years Math_pow Math_log src inputs) 0)) as F.
  destruct (find crosses_simple (running_cf (years Math_pow Math_log src inputs) 0))
    as [[p sum]|]; simpl.
  - destruct F as (front & back & E & Hx & Hfront).
    exists front, sum, back. unfold crosses_simple in Hx. simpl in Hx.
    apply andb_true_iff in Hx. destruct Hx as [H1 H2].
    apply geb_true in H1. apply gtb_true in H2.
    split; [exact E|]. split; [exact H2|]. split; [exact H1|].
    eapply Forall_impl; [|exact Hfront]. exact Neg.
  - eapply Forall_impl; [|exact F]. exact Neg.
Qed.

Lemma payback_simple_is_first_crossing_witness :
  exists res,
    runFinancialModel pow_ref log_ref part_000 two_year_inputs = Some res
    /\ match res_payback_simple res with
       | Some p =>
           exists front sum back,
             running_cf (res_years res) 0 = front ++ (p, sum) :: back
             /\ 0 < p /\ 0 <= sum
             /\ Forall (fun e => snd e < 0 \/ fst e <= 0) front
       | None =>
           Forall (fun e => snd e < 0 \/ fst e <= 0) (running_cf (res_years res) 0)
       end.
Proof.
  destruct (run_returns pow_ref log_ref part_000 two_year_inputs) as [res E].
  { vm_compute. discriminate. }
  exists res. split; [exact E|].
  exact (payback_simple_is_first_crossing pow_ref log_ref part_000 two_year_inputs res E).
Defined.

(** ** The sensitivity sweep, continued *)

Section SortMore.

Context {A : Type} (f : A -> Q).

Local Notation "'cmp'" := (fun a b : A => f b - f a).
Local Notation "'desc'" := (fun a b : A => f b <= f a).

(** A list that is in descending order already comes back unchanged. *)
Lemma Array_sort_sorted_id (l : list A) :
  StronglySorted desc l -> Array_sort cmp l = l.
Proof.
  induction l as [|a l IH]; intro Hs; simpl; [reflexivity|].
  inversion Hs as [|a' l' Hs' Hall]; subst.
  rewrite (IH Hs'). destruct l as [|b l]; [reflexivity|].
  simpl. inversion Hall as [|b' l' Hb _]; subst.
  assert (G : gtb (f b - f a) 0 = false) by (apply gtb_false; lra).
  now rewrite G.
Qed.

(** The entries with one and the same key value keep their order. *)
Lemma sort_insert_filter (d : Q) (a : A) (l : list A) :
  filter (fun e => Qeq_bool (f e) d) (sort_insert cmp a l)
  = filter (fun e => Qeq_bool (f e) d) (a :: l).
Proof.
  induction l as [|b l IH]; [reflexivity|].
  cbn [sort_insert]. destruct (gtb (f b - f a) 0) eqn:E; [|reflexivity].
  apply gtb_true in E.
  cbn [filter] in *. rewrite IH.
  destruct (Qeq_bool (f b) d) eqn:Eb; destruct (Qeq_bool (f a) d) eqn:Ea;
    try reflexivity.
  apply Qeq_bool_iff in Eb, Ea. lra.
Qed.

Lemma Array_sort_stable (d : Q) (l : list A) :
  filter (fun e => Qeq_bool (f e) d) (Array_sort cmp l)
  = filter (fun e => Qeq_bool (f e) d) l.
Proof.
  induction l as [|a l IH]; [reflexivity|].
  cbn [Array_sort]. rewrite sort_insert_filter. cbn [filter]. now rewrite IH.
Qed.

End SortMore.

(** None of the eight parameters is the horizon. *)
Lemma params_not_horizon :
  Forall (fun p => p_key p <> T_project) params.
Proof. repeat constructor; discriminate. Qed.

Section RunOutcome.

Variable Math_pow : Q -> Q -> Q.
Variable Math_log : Q -> Q.
Variable src : source_file.

(** The call throws exactly when the horizon is negative. *)
Lemma run_none_iff (inputs : ModelInputs) :
  runFinancialModel Math_pow Math_log src inputs = None
  <-> field inputs T_project < 0.
Proof.
  split; intro H.
  - destruct (Qlt_le_dec (field inputs T_project) 0) as [Hlt|Hle]; [exact Hlt|].
    destruct (run_returns Math_pow Math_log src inputs Hle) as [res E]. congruence.
  - now apply run_throws.
Qed.

(** Changing an input other than the horizon does not change whether the
    call throws. *)
Lemma run_none_set_field (inputs : ModelInputs) (k : key) (v : Q) :
  k <> T_project ->
  (runFinancialModel Math_pow Math_log src (set_field inputs k v) = None
   <-> runFinancialModel Math_pow Math_log src inputs = None).
Proof.
  intro Hk. rewrite !run_none_iff. now rewrite set_field_other.
Qed.

End RunOutcome.

(** X7.  The fallback of [runSensitivity] to [baseNPV] is all or nothing:
    a perturbed run throws exactly when the run of the base inputs does
    (none of the eight parameters is the horizon).  When the base run
    returns, both NPVs of every entry come from runs that returned; when
    it throws, both are [baseNPV], every [delta] is 0 and the entries come
    back in the order of the parameter list. *)
Theorem sensitivity_fallback_all_or_nothing :
  forall (Math_pow : Q -> Q -> Q) (Math_log : Q -> Q) (src : source_file)
         (baseInputs : ModelInputs) (baseNPV : Q),
    let run := runFinancialModel Math_pow Math_log src in
    let out := runSensitivity Math_pow Math_log src baseInputs baseNPV in
    (run baseInputs <> None ->
     Forall (fun e =>
               exists res_lo res_hi,
                 run (set_field baseInputs (se_key e) (field baseInputs (se_key e) * 0.8))
                 = Some res_lo
                 /\ run (set_field baseInputs (se_key e) (field baseInputs (se_key e) * 1.2))
                    = Some res_hi
                 /\ se_npv_lo e = res_NPV res_lo
                 /\ se_npv_hi e = res_NPV res_hi)
            out)
    /\ (run baseInputs = None ->
        out = map (sensitivity_entry Math_pow Math_log src baseInputs baseNPV) params
        /\ Forall (fun e => se_npv_lo e = baseNPV /\ se_npv_hi e = baseNPV
                            /\ se_delta e == 0)
                  out).
Proof.
  intros Math_pow Math_log src baseInputs baseNPV run out. subst run.
  assert (P : Permutation out
                (map (sensitivity_entry Math_pow Math_log src baseInputs baseNPV) params))
    by apply (Array_sort_perm se_delta).
  split; intro Hbase.
  - apply Forall_forall. intros e Hin. apply (Permutation_in _ P) in Hin.
    apply in_map_iff in Hin. destruct Hin as (p & <- & Hp).
    pose proof (proj1 (Forall_forall _ _) params_not_horizon p Hp) as Hk.
    cbn [se_key se_npv_lo se_npv_hi sensitivity_entry]. unfold npv_or.
    destruct (runFinancialModel Math_pow Math_log src
                (set_field baseInputs (p_key p) (field baseInputs (p_key p) * 0.8)))
      as [rlo|] eqn:Elo.
    2:{ apply run_none_set_field in Elo; [contradiction|exact Hk]. }
    destruct (runFinancialModel Math_pow Math_log src
                (set_field baseInputs (p_key p) (field baseInputs (p_key p) * 1.2)))
      as [rhi|] eqn:Ehi.
    2:{ apply run_none_set_field in Ehi; [contradiction|exact Hk]. }
    exists rlo, rhi. repeat split; reflexivity.
  - assert (All : Forall (fun e => se_npv_lo e = baseNPV /\ se_npv_hi e = baseNPV
                                   /\ se_delta e = Math_abs (baseNPV - baseNPV))
                         (map (sensitivity_entry Math_pow Math_log src baseInputs baseNPV)
                              params)).
    { apply Forall_forall. intros e Hin.
      apply in_map_iff in Hin. destruct Hin as (p & <- & Hp).
      pose proof (proj1 (Forall_forall _ _) params_not_horizon p Hp) as Hk.
      cbn [se_npv_lo se_npv_hi se_delta sensitivity_entry]. unfold npv_or.
      rewrite (proj2 (run_none_set_field Math_pow Math_log src baseInputs _ _ Hk) Hbase).
      rewrite (proj2 (run_none_set_field Math_pow Math_log src baseInputs _ _ Hk) Hbase).
      repeat split; reflexivity. }
    assert (Z0 : Math_abs (baseNPV - baseNPV) == 0).
    { unfold Math_abs. rewrite (Qabs_wd _ 0) by ring. reflexivity. }
    assert (Id : out = map (sensitivity_entry Math_pow Math_log src baseInputs baseNPV)
                           params).
    { unfold out, runSensitivity. apply (Array_sort_sorted_id se_delta).
      remember (map (sensitivity_entry Math_pow Math_log src baseInputs baseNPV) params)
        as l eqn:El. clear El P.
      induction All as [|e l He Hl IH]; constructor; [exact IH|].
      eapply Forall_impl; [|exact Hl]. simpl. intros x (_ & _ & Hx).
      destruct He as (_ & _ & He). rewrite Hx, He. apply Qle_refl. }
    split; [exact Id|]. rewrite Id.
    eapply Forall_impl; [|exact All]. simpl. intros e (H1 & H2 & H3).
    repeat split; try assumption. now rewrite H3.
Qed.

Lemma sensitivity_fallback_all_or_nothing_witness :
  Forall (fun e => se_npv_lo e = 0 /\ se_npv_hi e = 0 /\ se_delta e == 0)
         (runSensitivity pow_ref log_ref App_jsx
            (set_field default_inputs T_project (-1)) 0).
Proof.
  destruct (sensitivity_fallback_all_or_nothing pow_ref log_ref App_jsx
              (set_field default_inputs T_project (-1)) 0) as (_ & H).
  apply H. apply run_throws. vm_compute. reflexivity.
Defined.

(** X8.  The ranking is stable: the entries whose [delta] has one and the
    same value come back in the order of the parameter list. *)
Theorem sensitivity_ties_keep_parameter_order :
  forall (Math_pow : Q -> Q -> Q) (Math_log : Q -> Q) (src : source_file)
         (baseInputs : ModelInputs) (baseNPV d : Q),
    filter (fun e => Qeq_bool (se_delta e) d)
           (runSensitivity Math_pow Math_log src baseInputs baseNPV)
    = filter (fun e => Qeq_bool (se_delta e) d)
             (map (sensitivity_entry Math_pow Math_log src baseInputs baseNPV) params).
Proof.
  intros. unfold runSensitivity. apply (Array_sort_stable se_delta).
Qed.

(** ** The capital schedule *)

Lemma fold_plus_acc (l : list Q) : forall a, fold_left Qplus l a == a + sum_list l.
Proof.
  unfold sum_list. induction l as [|x l IH]; intro a; simpl; [ring|].
  rewrite IH, (IH (0 + x)). ring.
Qed.

Lemma sum_list_app (l1 l2 : list Q) : sum_list (l1 ++ l2) == sum_list l1 + sum_list l2.
Proof.
  unfold sum_list at 1. rewrite fold_left_app. rewrite fold_plus_acc. reflexivity.
Qed.

Lemma capex_loop_snd (Math_pow : Q -> Q -> Q) (Math_log : Q -> Q) (inputs : ModelInputs)
    (l : list Q) :
  forall acc : list Q * Q,
    snd (fold_left
           (fun a n =>
              (fst a ++ [CAPEX_unit1 inputs * Math_pow n (lr_exp Math_log inputs)],
               snd a + CAPEX_unit1 inputs * Math_pow n (lr_exp Math_log inputs)))
           l acc)
    = fold_left Qplus
        (map (fun n => CAPEX_unit1 inputs * Math_pow n (lr_exp Math_log inputs)) l)
        (snd acc).
Proof.
  induction l as [|n l IH]; intro acc; simpl; [reflexivity|].
  now rewrite IH.
Qed.

Lemma capex_fleet_total_sum (Math_pow : Q -> Q -> Q) (Math_log : Q -> Q)
    (inputs : ModelInputs) :
  capex_fleet_total Math_pow Math_log inputs
  = sum_list (unit_capex Math_pow Math_log inputs).
Proof.
  rewrite unit_capex_map. unfold capex_fleet_total, capex_loop.
  rewrite for_le_spec, capex_loop_snd. reflexivity.
Qed.

Lemma trips_le_integers (start bound : Q) (a b : Z) :
  start == inject_Z a -> bound == inject_Z b ->
  trips_le start bound = Z.to_nat (b - a + 1).
Proof.
  intros Ea Eb. unfold trips_le. f_equal. f_equal.
  rewrite <- (Qfloor_Z (b - a)). apply Qfloor_comp.
  rewrite Ea, Eb. unfold Z.sub. rewrite inject_Z_plus, inject_Z_opp. ring.
Qed.

Lemma trips_lt_integers (start bound : Q) (a b : Z) :
  start == inject_Z a -> bound == inject_Z b ->
  trips_lt start bound = Z.to_nat (b - a).
Proof.
  intros Ea Eb. unfold trips_lt, Qceiling. f_equal.
  assert (E : Qfloor (- (bound - start)) = (a - b)%Z).
  { rewrite <- (Qfloor_Z (a - b)). apply Qfloor_comp.
    rewrite Ea, Eb. unfold Z.sub. rewrite inject_Z_plus, inject_Z_opp. ring. }
  rewrite E. lia.
Qed.

(** A lookup at an integer index. *)
Lemma elem_or_0_integer (arr : list Q) (q : Q) (j : nat) :
  q == inject_Z (Z.of_nat j) -> elem_or_0 arr q = nth j arr 0.
Proof.
  intro E. unfold elem_or_0, Math_floor, eqb.
  assert (F : Qfloor q = Z.of_nat j) by (rewrite <- Qfloor_Z; now apply Qfloor_comp).
  rewrite F.
  assert (B : Qeq_bool q (inject_Z (Z.of_nat j)) = true) by now apply Qeq_bool_iff.
  rewrite B. assert (P : (0 <=? Z.of_nat j)%Z = true) by (apply Z.leb_le; lia).
  rewrite P. simpl. now rewrite Nat2Z.id.
Qed.

(** The sum a loop accumulates over the lookups at the indices [idx n],
    which are the counter values [n] shifted, from an integer index on. *)
Lemma sum_lookups (arr : list Q) (idx : Q -> Q) (shift : Q) :
  (forall c, idx c == c + shift) ->
  forall (k : nat) (start : Q) (j : nat) (acc : Q),
    start + shift == inject_Z (Z.of_nat j) ->
    fold_left (fun a c => a + elem_or_0 arr (idx c)) (count_from start k) acc
    = fold_left Qplus (map (fun i => nth i arr 0) (seq j k)) acc.
Proof.
  intro Hidx.
  induction k as [|k IH]; intros start j acc E; [reflexivity|].
  cbn [count_from fold_left seq map].
  rewrite (elem_or_0_integer arr _ j) by (rewrite Hidx; exact E).
  apply IH. rewrite Nat2Z.inj_succ, <- Z.add_1_r, inject_Z_plus.
  change (inject_Z 1) with 1. rewrite <- E. ring.
Qed.

Lemma map_nth_seq (arr : list Q) (k : nat) :
  (k <= List.length arr)%nat ->
  map (fun i => nth i arr 0) (seq 0 k) = firstn k arr.
Proof.
  revert arr. induction k as [|k IH]; intros arr Hk; [reflexivity|].
  destruct arr as [|x arr]; [simpl in Hk; lia|].
  cbn [seq map nth firstn]. f_equal.
  rewrite <- seq_shift, map_map. apply IH. simpl in Hk. lia.
Qed.

Section Capital.

Variable Math_pow : Q -> Q -> Q.
Variable Math_log : Q -> Q.
Variable inputs : ModelInputs.

(** The fleet size is the integer [n >= 1] and the deploy rate is not
    negative. *)
Variable n : Z.
Hypothesis fleet_integer : field inputs N_units == inject_Z n.
Hypothesis fleet_positive : (1 <= n)%Z.
Hypothesis rate_nonneg : 0 <= field inputs units_per_year.

Local Notation "'arr'" := (unit_capex Math_pow Math_log inputs).
Local Notation "'dep'" := (deployed inputs n).

Lemma N_deployed_integer (y : Q) : N_deployed inputs y == inject_Z (dep y).
Proof.
  unfold N_deployed, Math_min, Math_floor, deployed.
  rewrite fleet_integer.
  rewrite <- (inject_Z_plus _ 1).
  destruct (Z.min_spec n (Qfloor (y * field inputs units_per_year) + 1)) as [[H E]|[H E]];
    rewrite E.
  - apply Q.min_l. rewrite <- Zle_Qle. lia.
  - apply Q.min_r. rewrite <- Zle_Qle. lia.
Qed.

Lemma deployed_pos (y : Q) : 0 <= y -> (1 <= dep y)%Z.
Proof.
  intro Hy. unfold deployed.
  assert (0 <= Qfloor (y * field inputs units_per_year))%Z.
  { apply Qfloor_nonneg. now apply Qmult_le_0_compat. }
  lia.
Qed.

Lemma deployed_mono (y1 y2 : Q) : y1 <= y2 -> (dep y1 <= dep y2)%Z.
Proof.
  intro H. unfold deployed.
  assert (Qfloor (y1 * field inputs units_per_year)
          <= Qfloor (y2 * field inputs units_per_year))%Z.
  { apply Qfloor_resp_le. now apply Qmult_le_compat_r. }
  lia.
Qed.

Lemma deployed_le (y : Q) : (dep y <= n)%Z.
Proof. unfold deployed. lia. Qed.

Lemma unit_capex_length : List.length arr = Z.to_nat n.
Proof.
  rewrite unit_capex_map, length_map, count_from_length.
  rewrite (trips_le_integers 1 _ 1 n) by (reflexivity || exact fleet_integer).
  f_equal. lia.
Qed.

(** The cumulative CAPEX is the sum of the first [dep y] entries. *)
Lemma capex_cum_sum (y : Q) :
  capex_cum Math_pow Math_log inputs y
  = sum_list (firstn (Z.to_nat (dep y)) arr).
Proof.
  unfold capex_cum. rewrite for_lt_spec.
  rewrite (trips_lt_integers 0 _ 0 (dep y))
    by (reflexivity || apply N_deployed_integer).
  rewrite Z.sub_0_r.
  rewrite (sum_lookups arr (fun c => c) 0 (fun c => symmetry (Qplus_0_r c)) _ 0 0%nat 0)
    by reflexivity.
  rewrite map_nth_seq; [reflexivity|].
  rewrite unit_capex_length. pose proof (deployed_le y). lia.
Qed.

(** The CAPEX of a year is the sum of the entries from [dep (y - 1)] to
    [dep y]. *)
Lemma capex_year_sum (y : Q) :
  1 <= y ->
  capex_year Math_pow Math_log inputs y
  = sum_list (map (fun i => nth i arr 0)
                  (seq (Z.to_nat (dep (y - 1)))
                       (Z.to_nat (dep y - dep (y - 1))))).
Proof.
  intro Hy. unfold capex_year. rewrite for_le_spec.
  assert (Hne : eqb y 0 = false).
  { unfold eqb. destruct (Qeq_bool y 0) eqn:E; [|reflexivity].
    apply Qeq_bool_iff in E. lra. }
  assert (Hprev : N_prev inputs y == inject_Z (dep (y - 1))).
  { unfold N_prev. rewrite Hne. apply N_deployed_integer. }
  pose proof (deployed_pos (y - 1)) as Hpos.
  rewrite (trips_le_integers (N_prev inputs y + 1) _ (dep (y - 1) + 1) (dep y)).
  2:{ rewrite Hprev, inject_Z_plus. reflexivity. }
  2:{ apply N_deployed_integer. }
  replace (dep y - (dep (y - 1) + 1) + 1)%Z with (dep y - dep (y - 1))%Z by lia.
  apply (sum_lookups arr (fun c => c - 1) (- (1))).
  - intro c. ring.
  - rewrite Hprev. rewrite Z2Nat.id by lra || (specialize (Hpos ltac:(lra)); lia).
    ring.
Qed.

Lemma capex_cum_compat (y y' : Q) :
  y == y' ->
  capex_cum Math_pow Math_log inputs y = capex_cum Math_pow Math_log inputs y'.
Proof.
  intro E. rewrite !capex_cum_sum. unfold deployed.
  rewrite (Qfloor_comp (y * field inputs units_per_year)
                       (y' * field inputs units_per_year)) by now rewrite E.
  reflexivity.
Qed.

Lemma capex_year_compat (y y' : Q) :
  1 <= y -> y == y' ->
  capex_year Math_pow Math_log inputs y = capex_year Math_pow Math_log inputs y'.
Proof.
  intros Hy E. rewrite !capex_year_sum by lra. unfold deployed.
  rewrite (Qfloor_comp (y * field inputs units_per_year)
                       (y' * field inputs units_per_year)) by now rewrite E.
  rewrite (Qfloor_comp ((y - 1) * field inputs units_per_year)
                       ((y' - 1) * field inputs units_per_year)) by now rewrite E.
  reflexivity.
Qed.

Lemma capex_year_first :
  capex_year Math_pow Math_log inputs 0 = capex_cum Math_pow Math_log inputs 0.
Proof.
  rewrite capex_cum_sum. unfold capex_year. rewrite for_le_spec.
  assert (D0 : dep 0 = 1%Z).
  { unfold deployed. rewrite (Qfloor_comp _ 0) by ring. change (Qfloor 0) with 0%Z. lia. }
  assert (Hprev : N_prev inputs 0 = 0) by reflexivity.
  rewrite (trips_le_integers (N_prev inputs 0 + 1) _ 1 (dep 0)).
  2:{ rewrite Hprev. reflexivity. }
  2:{ apply N_deployed_integer. }
  rewrite D0. change (Z.to_nat (1 - 1 + 1)) with 1%nat. change (Z.to_nat 1) with 1%nat.
  rewrite (sum_lookups arr (fun c => c - 1) (- (1)) (fun c => Qeq_refl _) 1 _ 0%nat 0).
  2:{ rewrite Hprev. reflexivity. }
  rewrite map_nth_seq; [reflexivity|].
  rewrite unit_capex_length. lia.
Qed.

Lemma capex_cum_step (y : Q) :
  1 <= y ->
  capex_cum Math_pow Math_log inputs y
  == capex_cum Math_pow Math_log inputs (y - 1)
     + capex_year Math_pow Math_log inputs y.
Proof.
  intro Hy. rewrite (capex_year_sum y Hy), !capex_cum_sum.
  pose proof (deployed_pos (y - 1) ltac:(lra)) as Hpos.
  pose proof (deployed_mono (y - 1) y ltac:(lra)) as Hmono.
  pose proof (deployed_le y) as Hle.
  rewrite <- !map_nth_seq by (rewrite unit_capex_length; lia).
  rewrite <- sum_list_app, <- map_app, <- seq_app.
  replace (Z.to_nat (dep (y - 1)) + Z.to_nat (dep y - dep (y - 1)))%nat
    with (Z.to_nat (dep y)) by lia.
  reflexivity.
Qed.

Lemma capex_cum_complete (y : Q) :
  field inputs N_units <= Math_floor (y * field inputs units_per_year) + 1 ->
  capex_cum Math_pow Math_log inputs y = capex_fleet_total Math_pow Math_log inputs.
Proof.
  intro H. rewrite capex_cum_sum, capex_fleet_total_sum.
  assert (D : dep y = n).
  { unfold deployed. apply Z.min_l. rewrite Zle_Qle, inject_Z_plus.
    rewrite <- fleet_integer. exact H. }
  rewrite D, <- unit_capex_length. now rewrite firstn_all.
Qed.

Lemma capex_year_idle (y : Q) :
  1 <= y -> N_deployed inputs (y - 1) == N_deployed inputs y ->
  capex_year Math_pow Math_log inputs y = 0.
Proof.
  intros Hy E. rewrite (capex_year_sum y Hy).
  assert (E' : dep (y - 1) = dep y).
  { apply inject_Z_injective. now rewrite <- !N_deployed_integer. }
  rewrite E', Z.sub_diag. reflexivity.
Qed.

(** The yearly CAPEX of the year offsets 0, ..., [k] adds up to the
    cumulative CAPEX of the year offset [k]. *)
Lemma capex_year_telescopes (k : nat) :
  forall l last,
    count_from 0 (S k) = l ++ [last] ->
    sum_list (map (capex_year Math_pow Math_log inputs) (count_from 0 (S k)))
    == capex_cum Math_pow Math_log inputs last.
Proof.
  induction k as [|k IH]; intros l last E.
  - cbn [count_from] in *. destruct l as [|a l]; [|destruct l; discriminate].
    injection E as <-. cbn [map]. unfold sum_list. cbn [fold_left].
    rewrite capex_year_first. ring.
  - destruct (count_from_snoc k 0) as [prev Eprev].
    destruct (count_from_snoc (S k) 0) as [last' Elast].
    rewrite Elast in E. apply app_inj_tail in E. destruct E as [_ <-].
    rewrite Elast, map_app, sum_list_app. cbn [map].
    rewrite (IH _ _ Eprev).
    assert (Vprev : prev == inject_Z (Z.of_nat k)).
    { assert (N : nth_error (count_from 0 (S k)) k = Some prev).
      { rewrite Eprev, nth_error_app2 by (rewrite count_from_length; lia).
        rewrite count_from_length, Nat.sub_diag. reflexivity. }
      apply count_from_nth in N. rewrite N. ring. }
    assert (Vlast : last' == inject_Z (Z.of_nat (S k))).
    { assert (N : nth_error (count_from 0 (S (S k))) (S k) = Some last').
      { rewrite Elast, nth_error_app2 by (rewrite count_from_length; lia).
        rewrite count_from_length, Nat.sub_diag. reflexivity. }
      apply count_from_nth in N. rewrite N. ring. }
    assert (H1 : 1 <= last').
    { rewrite Vlast, Nat2Z.inj_succ, <- Z.add_1_r, inject_Z_plus.
      change (inject_Z 1) with 1.
      assert (0 <= inject_Z (Z.of_nat k)) by (rewrite <- (Zle_Qle 0); lia). lra. }
    rewrite (capex_cum_step last' H1).
    rewrite (capex_cum_compat prev (last' - 1)).
    2:{ rewrite Vprev, Vlast, Nat2Z.inj_succ, <- Z.add_1_r, inject_Z_plus.
        change (inject_Z 1) with 1. ring. }
    unfold sum_list. cbn [fold_left]. ring.
Qed.

End Capital.

(** X9.  The fleet CAPEX is the sum of the schedule [unit_capex]; the
    schedule has one entry per unit of an integer fleet, the entry of the
    unit number [i + 1] being [CAPEX_unit1 * (i + 1)^lr_exp], and it is
    empty, with a fleet CAPEX of 0, for a fleet size below 1. *)
Theorem fleet_capex_is_sum_of_schedule :
  forall (Math_pow : Q -> Q -> Q) (Math_log : Q -> Q) (inputs : ModelInputs),
    capex_fleet_total Math_pow Math_log inputs
    = sum_list (unit_capex Math_pow Math_log inputs)
    /\ (forall n : Z, field inputs N_units == inject_Z n ->
          List.length (unit_capex Math_pow Math_log inputs) = Z.to_nat n)
    /\ (field inputs N_units < 1 ->
        unit_capex Math_pow Math_log inputs = []
        /\ capex_fleet_total Math_pow Math_log inputs = 0)
    /\ (forall i c,
          nth_error (unit_capex Math_pow Math_log inputs) i = Some c ->
          exists q, q == inject_Z (Z.of_nat i) + 1
                    /\ c = CAPEX_unit1 inputs * Math_pow q (lr_exp Math_log inputs)).
Proof.
  intros Math_pow Math_log inputs.
  split; [apply capex_fleet_total_sum|]. split; [|split].
  - intros n Hn. now apply unit_capex_length.
  - intro H. rewrite capex_fleet_total_sum, unit_capex_map.
    rewrite trips_le_done by exact H. split; reflexivity.
  - intros i c H. rewrite unit_capex_map in H.
    rewrite nth_error_map in H.
    destruct (nth_error (count_from 1 (trips_le 1 (field inputs N_units))) i)
      as [q|] eqn:Hq; [|discriminate].
    injection H as <-. exists q. split; [|reflexivity].
    apply count_from_nth in Hq. rewrite Hq. ring.
Qed.

(** X10.  Capital is spent once.  For an integer fleet of at least one
    unit and a deploy rate that is not negative: the cumulative CAPEX of a
    year is that of the year before plus the CAPEX of the year; the CAPEX
    of the year 0 is that of the first unit; a year that deploys no unit
    has no CAPEX; once the whole fleet is deployed the cumulative CAPEX is
    the fleet CAPEX; and the yearly CAPEX of the records of [years] adds up
    to the cumulative CAPEX of the last year. *)
Theorem capital_is_spent_once :
  forall (Math_pow : Q -> Q -> Q) (Math_log : Q -> Q) (inputs : ModelInputs) (n : Z),
    field inputs N_units == inject_Z n ->
    (1 <= n)%Z ->
    0 <= field inputs units_per_year ->
    capex_year Math_pow Math_log inputs 0 = capex_cum Math_pow Math_log inputs 0
    /\ (forall y, 1 <= y ->
          capex_cum Math_pow Math_log inputs y
          == capex_cum Math_pow Math_log inputs (y - 1)
             + capex_year Math_pow Math_log inputs y)
    /\ (forall y, 1 <= y -> N_deployed inputs (y - 1) == N_deployed inputs y ->
          capex_year Math_pow Math_log inputs y = 0)
    /\ (forall y,
          field inputs N_units <= Math_floor (y * field inputs units_per_year) + 1 ->
          capex_cum Math_pow Math_log inputs y
          = capex_fleet_total Math_pow Math_log inputs)
    /\ (forall src front final,
          years Math_pow Math_log src inputs = front ++ [final] ->
          sum_list (map yr_capex_year (years Math_pow Math_log src inputs))
          == capex_cum Math_pow Math_log inputs (yr_y final)).
Proof.
  intros Math_pow Math_log inputs n Hn Hpos Hrate.
  split; [now apply (capex_year_first Math_pow Math_log inputs n)|].
  split; [intros y Hy; now apply (capex_cum_step Math_pow Math_log inputs n)|].
  split; [intros y Hy E; now apply (capex_year_idle Math_pow Math_log inputs n)|].
  split; [intros y Hy; now apply (capex_cum_complete Math_pow Math_log inputs n)|].
  intros src front final E.
  assert (M : map yr_capex_year (years Math_pow Math_log src inputs)
              = map (capex_year Math_pow Math_log inputs)
                    (count_from 0 (trips_le 0 (field inputs T_project)))).
  { rewrite years_records.
    generalize (count_from 0 (trips_le 0 (field inputs T_project))) as l.
    generalize 0 as c. intros c l. revert c.
    induction l as [|y l IH]; intro c; cbn [records map]; [reflexivity|].
    now rewrite IH. }
  rewrite M.
  pose proof (f_equal (map yr_y) E) as Ey.
  rewrite years_records, records_y, map_app in Ey. cbn [map] in Ey.
  destruct (trips_le 0 (field inputs T_project)) as [|k] eqn:Ek.
  - destruct (map yr_y front); discriminate.
  - now apply (capex_year_telescopes Math_pow Math_log inputs n Hn Hpos Hrate k
                 (map yr_y front)).
Qed.

Lemma capital_is_spent_once_witness :
  capex_cum pow_ref log_ref default_inputs 2
  == capex_cum pow_ref log_ref default_inputs (2 - 1)
     + capex_year pow_ref log_ref default_inputs 2
  /\ capex_cum pow_ref log_ref default_inputs 2
     = capex_fleet_total pow_ref log_ref default_inputs.
Proof.
  destruct (capital_is_spent_once pow_ref log_ref default_inputs 4)
    as (_ & H1 & _ & H2 & _).
  - reflexivity.
  - lia.
  - vm_compute. discriminate.
  - split; [apply H1; vm_compute; discriminate|apply H2; vm_compute; discriminate].
Defined.

(** ** The two copies of the engine *)

Lemma fold_sum_Forall2 {A : Type} (R : A -> A -> Prop) (f g : A -> Q) :
  (forall x y, R x y -> f x == g y) ->
  forall l l', Forall2 R l l' ->
    forall a b, a == b ->
      fold_left (fun acc x => acc + f x) l a == fold_left (fun acc x => acc + g x) l' b.
Proof.
  intros Hfg l l' HF. induction HF as [|x y l l' Hxy HF IH]; intros a b E; simpl.
  - exact E.
  - apply IH. now rewrite E, (Hfg x y Hxy).
Qed.

Section Copies.

Variable Math_pow : Q -> Q -> Q.
Variable Math_log : Q -> Q.
Variable inputs : ModelInputs.

(** No greenhouse carve-out and an offtake allocation that is not
    negative. *)
Hypothesis no_greenhouse : field inputs f_greenhouse == 0.
Hypothesis offtake_nonneg : 0 <= field inputs f_offtake.

Lemma R_45Q_copies (y : Q) :
  is_45Q_eligible App_jsx inputs y = true ->
  R_45Q Math_pow App_jsx inputs y == R_45Q Math_pow part_000 inputs y.
Proof.
  intro He. unfold R_45Q. rewrite He, andb_true_r.
  destruct (gtb (field inputs f_45Q) 0 && leb y (field inputs T_45Q)); [|reflexivity].
  cbv zeta. destruct (gh_45Q_eligible inputs); rewrite no_greenhouse; ring.
Qed.

Lemma R_offtake_copies (y : Q) :
  R_offtake Math_pow App_jsx inputs y == R_offtake Math_pow part_000 inputs y.
Proof.
  unfold R_offtake, R_offtake_non_gh, R_offtake_gh, Math_max.
  assert (M : Qmax 0 (field inputs f_offtake - field inputs f_greenhouse)
              == field inputs f_offtake).
  { rewrite Q.max_r by lra. rewrite no_greenhouse. ring. }
  rewrite M, no_greenhouse. ring.
Qed.

Lemma R_total_copies (y : Q) :
  is_45Q_eligible App_jsx inputs y = true ->
  R_total Math_pow App_jsx inputs y == R_total Math_pow part_000 inputs y.
Proof.
  intro He. unfold R_total. now rewrite (R_45Q_copies y He), (R_offtake_copies y).
Qed.

Lemma year_record_copies (y c c' : Q) :
  is_45Q_eligible App_jsx inputs y = true -> c == c' ->
  same_year (year_record Math_pow Math_log App_jsx inputs y c)
            (year_record Math_pow Math_log part_000 inputs y c').
Proof.
  intros He Ec.
  pose proof (R_total_copies y He) as Et.
  assert (Ecf : CF Math_pow Math_log App_jsx inputs y
                == CF Math_pow Math_log part_000 inputs y).
  { unfold CF. now rewrite Et. }
  unfold same_year. cbn [year_record yr_year yr_y yr_N_deployed yr_CO2_fleet yr_R_45Q
    yr_R_VCM yr_R_offtake yr_R_comply yr_R_total yr_OPEX yr_capex_year yr_CF yr_DCF
    yr_cumulative_dcf yr_R_per_ton yr_OPEX_per_ton].
  repeat (split; [reflexivity|]).
  split; [now apply R_45Q_copies|]. split; [reflexivity|].
  split; [apply R_offtake_copies|]. split; [reflexivity|].
  split; [exact Et|]. split; [reflexivity|]. split; [reflexivity|].
  split; [exact Ecf|].
  split; [unfold DCF; now rewrite Ecf|].
  split; [exact Ec|].
  split; [|reflexivity].
  destruct (gtb (CO2_fleet inputs y) 0); [now rewrite Et|reflexivity].
Qed.

Lemma records_copies (l : list Q) :
  (forall y, In y l -> is_45Q_eligible App_jsx inputs y = true) ->
  forall c c', c == c' ->
    Forall2 same_year (records Math_pow Math_log App_jsx inputs l c)
                      (records Math_pow Math_log part_000 inputs l c').
Proof.
  induction l as [|y l IH]; intros He c c' Ec; cbn [records]; [constructor|].
  assert (Hy : is_45Q_eligible App_jsx inputs y = true) by (apply He; now left).
  assert (Ed : c + DCF Math_pow Math_log App_jsx inputs y
               == c' + DCF Math_pow Math_log part_000 inputs y).
  { unfold DCF, CF. now rewrite Ec, (R_total_copies y Hy). }
  constructor.
  - now apply year_record_copies.
  - apply IH; [|exact Ed]. intros z Hz. apply He. now right.
Qed.

(** Every year of the run of App.jsx is eligible. *)
Hypothesis always_eligible :
  forallb yr_is_45Q_eligible (years Math_pow Math_log App_jsx inputs) = true.

Lemma counters_eligible (y : Q) :
  In y (count_from 0 (trips_le 0 (field inputs T_project))) ->
  is_45Q_eligible App_jsx inputs y = true.
Proof.
  intro Hy. rewrite forallb_forall in always_eligible.
  rewrite years_records in always_eligible.
  apply In_nth_error in Hy. destruct Hy as [i Hi].
  assert (L : (i < List.length (records Math_pow Math_log App_jsx inputs
                                  (count_from 0 (trips_le 0 (field inputs T_project))) 0))%nat).
  { rewrite records_length. apply nth_error_Some. congruence. }
  apply nth_error_Some in L.
  destruct (nth_error (records Math_pow Math_log App_jsx inputs
                         (count_from 0 (trips_le 0 (field inputs T_project))) 0) i)
    as [yr|] eqn:Eyr; [|congruence].
  pose proof (always_eligible yr (nth_error_In _ _ Eyr)) as He.
  apply records_nth in Eyr. destruct Eyr as (y' & c & Hy' & ->).
  rewrite Hi in Hy'. injection Hy' as <-. exact He.
Qed.

Lemma years_copies :
  Forall2 same_year (years Math_pow Math_log App_jsx inputs)
                    (years Math_pow Math_log part_000 inputs).
Proof.
  rewrite !years_records. apply records_copies; [|reflexivity].
  exact counters_eligible.
Qed.

Lemma NPV_copies :
  NPV Math_pow Math_log App_jsx inputs == NPV Math_pow Math_log part_000 inputs.
Proof.
  rewrite !NPV_fold.
  generalize counters_eligible.
  generalize (count_from 0 (trips_le 0 (field inputs T_project))) as l.
  assert (G : forall l a b,
             (forall y, In y l -> is_45Q_eligible App_jsx inputs y = true) ->
             a == b ->
             fold_left Qplus (map (DCF Math_pow Math_log App_jsx inputs) l) a
             == fold_left Qplus (map (DCF Math_pow Math_log part_000 inputs) l) b).
  { induction l as [|y l IH]; intros a b He E; simpl; [exact E|].
    apply IH; [intros z Hz; apply He; now right|].
    unfold DCF, CF. rewrite E, (R_total_copies y) by (apply He; now left).
    reflexivity. }
  intros l He. now apply G.
Qed.

Lemma irr_test_copies (mid : Q) :
  irr_npv_test Math_pow Math_log App_jsx inputs mid
  == irr_npv_test Math_pow Math_log part_000 inputs mid.
Proof.
  unfold irr_npv_test.
  apply (fold_sum_Forall2 same_year); [|exact years_copies|reflexivity].
  intros a b H. unfold same_year in H.
  destruct H as (_ & Hy & _ & _ & _ & _ & _ & _ & _ & _ & _ & Hcf & _).
  now rewrite Hy, Hcf.
Qed.

Lemma breakeven_test_copies (mid : Q) :
  breakeven_npv_test Math_pow Math_log App_jsx inputs mid
  == breakeven_npv_test Math_pow Math_log part_000 inputs mid.
Proof.
  unfold breakeven_npv_test.
  assert (HF : Forall2 (fun a b => same_year a b /\ yr_is_45Q_eligible a = true)
                       (years Math_pow Math_log App_jsx inputs)
                       (years Math_pow Math_log part_000 inputs)).
  { pose proof years_copies as HS.
    rewrite forallb_forall in always_eligible.
    revert always_eligible.
    induction HS as [|a b l l' Hab HS IH]; intro He; constructor.
    - split; [exact Hab|]. apply He. now left.
    - apply IH. intros x Hx. apply He. now right. }
  refine (fold_sum_Forall2 _ _ _ _ _ _ HF 0 0 (Qeq_refl 0)).
  intros a b [H He]. unfold same_year in H.
  destruct H as (_ & Hy & _ & Hco & _ & Hvcm & Hoff & Hcom & _ & Hop & Hcap & _).
  cbv zeta. rewrite He, andb_true_l, Hy, Hco, Hvcm, Hoff, Hcom, Hop, Hcap.
  reflexivity.
Qed.

Lemma irr_loop_copies :
  forall (remaining iter : nat) (lo hi : Q),
    irr_loop Math_pow Math_log App_jsx inputs remaining iter lo hi
    = irr_loop Math_pow Math_log part_000 inputs remaining iter lo hi.
Proof.
  induction remaining as [|remaining IH]; intros iter lo hi; [reflexivity|].
  cbn [irr_loop]. cbv zeta.
  rewrite (gtb_compat _ _ 0 (irr_test_copies ((lo + hi) / 2))).
  destruct (ltb _ 0.0001); [reflexivity|apply IH].
Qed.

Lemma breakeven_loop_copies :
  forall (remaining iter : nat) (lo hi : Q),
    breakeven_loop Math_pow Math_log App_jsx inputs remaining iter lo hi
    = breakeven_loop Math_pow Math_log part_000 inputs remaining iter lo hi.
Proof.
  induction remaining as [|remaining IH]; intros iter lo hi; [reflexivity|].
  cbn [breakeven_loop]. cbv zeta.
  rewrite (ltb_compat _ _ 0 (breakeven_test_copies ((lo + hi) / 2))).
  destruct (ltb (Math_abs _) 0.5); [reflexivity|apply IH].
Qed.

End Copies.

(** X11.  App.jsx with its extra switches off computes what part_000
    computes.  When the greenhouse fraction is 0, the offtake allocation is
    not negative and every year of the App.jsx run passes the eligibility
    threshold, the two copies produce the same records year by year, the
    same NPV, the same IRR and the same breakeven price. *)
Theorem copies_agree_with_switches_off :
  forall (Math_pow : Q -> Q -> Q) (Math_log : Q -> Q) (inputs : ModelInputs),
    field inputs f_greenhouse == 0 ->
    0 <= field inputs f_offtake ->
    forallb yr_is_45Q_eligible (years Math_pow Math_log App_jsx inputs) = true ->
    Forall2 same_year (years Math_pow Math_log App_jsx inputs)
                      (years Math_pow Math_log part_000 inputs)
    /\ NPV Math_pow Math_log App_jsx inputs == NPV Math_pow Math_log part_000 inputs
    /\ IRR Math_pow Math_log App_jsx inputs = IRR Math_pow Math_log part_000 inputs
    /\ CR_breakeven Math_pow Math_log App_jsx inputs
       = CR_breakeven Math_pow Math_log part_000 inputs.
Proof.
  intros Math_pow Math_log inputs Hgh Hoff Hel.
  split; [now apply years_copies|]. split; [now apply NPV_copies|].
  split.
  - unfold IRR, irr_bracket. now rewrite irr_loop_copies.
  - unfold CR_breakeven, breakeven_bracket. now rewrite breakeven_loop_copies.
Qed.

Lemma copies_agree_with_switches_off_witness :
  NPV pow_ref log_ref App_jsx no_threshold_inputs
  == NPV pow_ref log_ref part_000 no_threshold_inputs.
Proof.
  destruct (copies_agree_with_switches_off pow_ref log_ref no_threshold_inputs)
    as (_ & H & _).
  - vm_compute. reflexivity.
  - vm_compute. discriminate.
  - vm_compute. reflexivity.
  - exact H.
Defined.

(** ** The breakeven objective and the simulation *)

(** X12.  The objective of the breakeven loop, evaluated at the configured
    credit rate, is the NPV of the simulation whenever no year of the
    horizon is one of inflation adjustment (every calendar year is before
    [Y_45Q_infl]), the 45Q allocation is not negative and, in App.jsx, the
    greenhouse fraction is 0.  In later years the simulation escalates the
    rate and the objective does not. *)
Theorem breakeven_objective_is_NPV_at_base_rate :
  forall (Math_pow : Q -> Q -> Q) (Math_log : Q -> Q) (src : source_file)
         (inputs : ModelInputs),
    0 <= field inputs f_45Q ->
    (src = App_jsx -> field inputs f_greenhouse == 0) ->
    forallb (fun yr => ltb (yr_year yr) (field inputs Y_45Q_infl))
            (years Math_pow Math_log src inputs) = true ->
    breakeven_npv_test Math_pow Math_log src inputs (field inputs CR_45Q)
    == NPV Math_pow Math_log src inputs.
Proof.
  intros Math_pow Math_log src inputs Hf Hgh Hyears.
  assert (Gfold : forall l c a,
             fold_left Qplus (map (DCF Math_pow Math_log src inputs) l) a
             = fold_left (fun acc yr => acc + yr_DCF yr)
                         (records Math_pow Math_log src inputs l c) a).
  { induction l as [|y l IH]; intros c a; cbn [records map fold_left]; [reflexivity|].
    now rewrite (IH (c + DCF Math_pow Math_log src inputs y)). }
  assert (Hnpv : NPV Math_pow Math_log src inputs
                 = fold_left (fun acc yr => acc + yr_DCF yr)
                             (years Math_pow Math_log src inputs) 0).
  { rewrite NPV_fold, years_records. apply Gfold. }
  rewrite Hnpv. unfold breakeven_npv_test.
  apply fold_sum_compat; [|reflexivity].
  intros yr Hin. rewrite forallb_forall in Hyears.
  pose proof (Hyears yr Hin) as Hbefore. apply ltb_true in Hbefore.
  apply years_In in Hin. destruct Hin as (y & c & ->).
  cbn [year_record yr_year yr_y yr_is_45Q_eligible yr_CO2_fleet yr_R_VCM yr_R_offtake
       yr_R_comply yr_OPEX yr_capex_year yr_DCF] in *.
  cbv zeta. unfold DCF, discount_factor, r. apply Qdiv_comp; [|reflexivity].
  unfold CF, R_total.
  assert (Ecr : cr Math_pow inputs y = field inputs CR_45Q).
  { unfold cr. apply geb_false in Hbefore. now rewrite Hbefore. }
  assert (E45 : (if match src with
                    | App_jsx => is_45Q_eligible src inputs y && leb y (field inputs T_45Q)
                    | part_000 => leb y (field inputs T_45Q)
                    end
                 then CO2_fleet inputs y * field inputs f_45Q * field inputs CR_45Q
                 else 0)
                == R_45Q Math_pow src inputs y).
  { unfold R_45Q. rewrite Ecr.
    destruct (gtb (field inputs f_45Q) 0) eqn:G.
    - destruct src; cbn [andb].
      + specialize (Hgh eq_refl). rewrite andb_comm.
        destruct (leb y (field inputs T_45Q) && is_45Q_eligible App_jsx inputs y);
          [|reflexivity].
        cbv zeta. destruct (gh_45Q_eligible inputs); rewrite Hgh; ring.
      + destruct (leb y (field inputs T_45Q)); reflexivity.
    - apply gtb_false in G. assert (Z : field inputs f_45Q == 0) by lra.
      cbn [andb].
      destruct src;
        [destruct (is_45Q_eligible App_jsx inputs y && leb y (field inputs T_45Q))
        |destruct (leb y (field inputs T_45Q))];
        try reflexivity; rewrite Z; ring. }
  rewrite E45. ring.
Qed.

Lemma breakeven_objective_is_NPV_at_base_rate_witness :
  breakeven_npv_test pow_ref log_ref part_000 horizon_0_inputs
    (field horizon_0_inputs CR_45Q)
  == NPV pow_ref log_ref part_000 horizon_0_inputs.
Proof.
  apply breakeven_objective_is_NPV_at_base_rate.
  - vm_compute. discriminate.
  - discriminate.
  - vm_compute. reflexivity.
Defined.

(** ** Eligibility and the threshold year (App.jsx) *)

Lemma eligible_mono (inputs : ModelInputs) (y1 y2 : Q) :
  0 <= CO2_tpy inputs ->
  0 <= field inputs units_per_year ->
  y1 <= y2 ->
  is_45Q_eligible App_jsx inputs y1 = true ->
  is_45Q_eligible App_jsx inputs y2 = true.
Proof.
  intros Hc Hr Hy. unfold is_45Q_eligible. rewrite !geb_true. intro H.
  apply Qle_trans with (1 := H). unfold CO2_fleet.
  apply Qmult_le_compat_r; [|exact Hc].
  unfold N_deployed, Math_min. apply Q.min_le_compat_l.
  apply Qplus_le_compat; [|lra]. apply Math_floor_mono.
  now apply Qmult_le_compat_r.
Qed.

(** The counter values grow. *)
Lemma count_from_sorted (k : nat) :
  forall start front y back,
    count_from start k = front ++ y :: back ->
    Forall (fun z => y <= z) back.
Proof.
  intros start front y back E. apply Forall_forall. intros z Hz.
  apply In_nth_error in Hz. destruct Hz as [j Hj].
  assert (Ny : nth_error (count_from start k) (List.length front) = Some y).
  { rewrite E, nth_error_app2 by lia. now rewrite Nat.sub_diag. }
  assert (Nz : nth_error (count_from start k) (List.length front + S j) = Some z).
  { rewrite E, nth_error_app2 by lia.
    replace (List.length front + S j - List.length front)%nat with (S j) by lia.
    exact Hj. }
  apply count_from_nth in Ny, Nz. rewrite Ny, Nz.
  apply Qplus_le_r. rewrite <- Zle_Qle. lia.
Qed.

Lemma existsb_find {A : Type} (f : A -> bool) (l : list A) :
  existsb f l = match find f l with Some _ => true | None => false end.
Proof.
  induction l as [|a l IH]; [reflexivity|].
  simpl. destruct (f a); [reflexivity|exact IH].
Qed.

(** X13.  In App.jsx, with an output per unit and a deploy rate that are
    not negative, eligibility once reached is kept: [threshold_year] is the
    calendar year of the first eligible record, every record before it is
    not eligible and every record from it on is; it is [null] when no
    record is eligible.  The threshold warning is issued exactly when the
    45Q allocation is positive and [threshold_year] is [null]. *)
Theorem threshold_year_is_first_eligible :
  forall (Math_pow : Q -> Q -> Q) (Math_log : Q -> Q) (inputs : ModelInputs)
         (res : ModelResult),
    runFinancialModel Math_pow Math_log App_jsx inputs = Some res ->
    0 <= CO2_tpy inputs ->
    0 <= field inputs units_per_year ->
    match res_threshold_year res with
    | Some t =>
        exists front yr back,
          res_years res = front ++ yr :: back
          /\ yr_year yr = t
          /\ Forall (fun e => yr_is_45Q_eligible e = false) front
          /\ Forall (fun e => yr_is_45Q_eligible e = true) (yr :: back)
    | None => Forall (fun e => yr_is_45Q_eligible e = false) (res_years res)
    end
    /\ ((exists q m, In (Warn_threshold q m) (res_warnings res))
        <-> (0 < field inputs f_45Q /\ res_threshold_year res = None)).
Proof.
  intros Math_pow Math_log inputs res Hrun Hc Hr.
  destruct (run_fields _ _ _ _ _ Hrun) as (Hy & _).
  assert (Ht : res_threshold_year res
               = option_map yr_year
                   (find yr_is_45Q_eligible (years Math_pow Math_log App_jsx inputs))).
  { unfold runFinancialModel in Hrun.
    destruct (yr1 Math_pow Math_log App_jsx inputs); [|discriminate].
    now injection Hrun as <-. }
  assert (Hw : res_warnings res = warnings Math_pow Math_log App_jsx inputs).
  { unfold runFinancialModel in Hrun.
    destruct (yr1 Math_pow Math_log App_jsx inputs); [|discriminate].
    now injection Hrun as <-. }
  pose proof (find_first yr_is_45Q_eligible (years Math_pow Math_log App_jsx inputs)) as F.
  split.
  - rewrite Ht, Hy.
    destruct (find yr_is_45Q_eligible (years Math_pow Math_log App_jsx inputs))
      as [yr|]; simpl; [|exact F].
    destruct F as (front & back & E & Hx & Hfront).
    exists front, yr, back. split; [exact E|]. split; [reflexivity|].
    split; [exact Hfront|]. constructor; [exact Hx|].
    (* the records after the first eligible one *)
    rewrite years_records in E.
    pose proof (f_equal (map yr_y) E) as Ey.
    rewrite records_y, map_app in Ey. cbn [map] in Ey.
    pose proof (count_from_sorted _ _ _ _ _ Ey) as Hs.
    apply Forall_forall. intros e He.
    assert (Hin : In e (records Math_pow Math_log App_jsx inputs
                          (count_from 0 (trips_le 0 (field inputs T_project))) 0))
      by (rewrite E; apply in_or_app; right; now right).
    assert (Hyr : In yr (records Math_pow Math_log App_jsx inputs
                           (count_from 0 (trips_le 0 (field inputs T_project))) 0))
      by (rewrite E; apply in_or_app; right; now left).
    pose proof (proj1 (Forall_forall _ _) Hs (yr_y e) (in_map yr_y _ _ He)) as Hle.
    apply records_In in Hin. destruct Hin as (y & c & _ & ->).
    apply records_In in Hyr. destruct Hyr as (y0 & c0 & _ & ->).
    cbn [year_record yr_y yr_is_45Q_eligible] in *.
    now apply (eligible_mono inputs y0 y).
  - rewrite Hw, Ht. unfold warnings.
    pose proof (existsb_find yr_is_45Q_eligible
                  (years Math_pow Math_log App_jsx inputs)) as Ex.
    rewrite Ex.
    destruct (gtb (field inputs f_45Q) 0) eqn:G;
      destruct (find yr_is_45Q_eligible (years Math_pow Math_log App_jsx inputs))
        as [yr|]; cbn [andb negb app option_map].
    + apply gtb_true in G. split.
      * intros (q & m & Hin). exfalso.
        destruct (gtb (field inputs f_45Q + field inputs f_VCM
                       + field inputs f_offtake + field inputs f_comply) 1.01);
          destruct (ltb (NPV Math_pow Math_log App_jsx inputs) 0);
          simpl in Hin; intuition discriminate.
      * intros [_ H]. discriminate.
    + apply gtb_true in G. split.
      * intros _. split; [exact G|reflexivity].
      * intros _. eexists _, _. left. reflexivity.
    + apply gtb_false in G. split.
      * intros (q & m & Hin). exfalso.
        destruct (gtb (field inputs f_45Q + field inputs f_VCM
                       + field inputs f_offtake + field inputs f_comply) 1.01);
          destruct (ltb (NPV Math_pow Math_log App_jsx inputs) 0);
          simpl in Hin; intuition discriminate.
      * intros [H _]. lra.
    + apply gtb_false in G. split.
      * intros (q & m & Hin). exfalso.
        destruct (gtb (field inputs f_45Q + field inputs f_VCM
                       + field inputs f_offtake + field inputs f_comply) 1.01);
          destruct (ltb (NPV Math_pow Math_log App_jsx inputs) 0);
          simpl in Hin; intuition discriminate.
      * intros [H _]. lra.
Qed.

Lemma threshold_year_is_first_eligible_witness :
  exists res,
    runFinancialModel pow_ref log_ref App_jsx default_inputs = Some res
    /\ ((exists q m, In (Warn_threshold q m) (res_warnings res))
        <-> (0 < field default_inputs f_45Q /\ res_threshold_year res = None)).
Proof.
  destruct (run_returns pow_ref log_ref App_jsx default_inputs) as [res E].
  { vm_compute. discriminate. }
  exists res. split; [exact E|].
  apply (threshold_year_is_first_eligible pow_ref log_ref default_inputs res E).
  - vm_compute. discriminate.
  - vm_compute. discriminate.
Defined.

(** ** Years without output, and a horizon of one year *)

(** X14.  A year without fleet output earns nothing: each of the four
    revenue streams and the total revenue of its record are 0 and its two
    per-ton ratios are the number 0.  With a capture rate or an
    availability of 0 that holds for every year, and the levelized cost is
    reported as 0. *)
Theorem no_output_no_revenue :
  forall (Math_pow : Q -> Q -> Q) (Math_log : Q -> Q) (src : source_file)
         (inputs : ModelInputs),
    Forall (fun yr =>
              yr_CO2_fleet yr == 0 ->
              yr_R_45Q yr == 0 /\ yr_R_VCM yr == 0 /\ yr_R_offtake yr == 0
              /\ yr_R_comply yr == 0 /\ yr_R_total yr == 0
              /\ yr_R_per_ton yr = 0 /\ yr_OPEX_per_ton yr = 0)
           (years Math_pow Math_log src inputs)
    /\ (CO2_tpy inputs == 0 ->
        Forall (fun yr => yr_CO2_fleet yr == 0) (years Math_pow Math_log src inputs)
        /\ LCCC Math_pow Math_log src inputs = 0).
Proof.
  intros Math_pow Math_log src inputs. split.
  - apply Forall_forall. intros yr Hin.
    apply years_In in Hin. destruct Hin as (y & c & ->).
    cbn [year_record yr_CO2_fleet yr_R_45Q yr_R_VCM yr_R_offtake yr_R_comply
         yr_R_total yr_R_per_ton yr_OPEX_per_ton].
    intro Z.
    assert (E45 : R_45Q Math_pow src inputs y == 0).
    { unfold R_45Q. destruct src.
      - destruct (gtb (field inputs f_45Q) 0 && leb y (field inputs T_45Q)
                  && is_45Q_eligible App_jsx inputs y); [|reflexivity].
        cbv zeta. destruct (gh_45Q_eligible inputs); rewrite Z; ring.
      - destruct (gtb (field inputs f_45Q) 0 && leb y (field inputs T_45Q));
          [rewrite Z; ring|reflexivity]. }
    assert (Evcm : R_VCM Math_pow inputs y == 0) by (unfold R_VCM; rewrite Z; ring).
    assert (Eoff : R_offtake Math_pow src inputs y == 0).
    { unfold R_offtake, R_offtake_non_gh, R_offtake_gh.
      destruct src; rewrite Z; ring. }
    assert (Ecom : R_comply Math_pow inputs y == 0) by (unfold R_comply; rewrite Z; ring).
    assert (G : gtb (CO2_fleet inputs y) 0 = false) by (apply gtb_false; lra).
    rewrite G. repeat (split; [assumption|]).
    split; [|split; reflexivity].
    unfold R_total. rewrite E45, Evcm, Eoff, Ecom. reflexivity.
  - intro Z. split.
    + apply Forall_forall. intros yr Hin.
      apply years_In in Hin. destruct Hin as (y & c & ->).
      cbn [year_record yr_CO2_fleet]. unfold CO2_fleet. rewrite Z. ring.
    + unfold LCCC.
      assert (G : gtb (CO2_tpy inputs) 0 = false) by (apply gtb_false; lra).
      now rewrite G.
Qed.

Lemma no_output_no_revenue_witness :
  Forall (fun yr => yr_CO2_fleet yr == 0)
         (years pow_ref log_ref App_jsx no_capture_inputs)
  /\ LCCC pow_ref log_ref App_jsx no_capture_inputs = 0.
Proof.
  destruct (no_output_no_revenue pow_ref log_ref App_jsx no_capture_inputs) as (_ & H).
  apply H. vm_compute. reflexivity.
Defined.

(** X15.  A horizon below one year (0 for an integer horizon) leaves the
    single record of the year [y = 0]: the NPV is the cash flow of that
    year, both paybacks are [null], and so is the IRR, the test NPV being
    that cash flow at every rate. *)
Theorem single_year_horizon :
  forall (Math_pow : Q -> Q -> Q) (Math_log : Q -> Q) (src : source_file)
         (inputs : ModelInputs),
    pow_zero_law Math_pow ->
    0 <= field inputs T_project ->
    field inputs T_project < 1 ->
    exists res yr,
      runFinancialModel Math_pow Math_log src inputs = Some res
      /\ res_years res = [yr] /\ yr_y yr = 0
      /\ res_NPV res == yr_CF yr
      /\ res_payback_disc res = None
      /\ res_payback_simple res = None
      /\ res_IRR res = None.
Proof.
  intros Math_pow Math_log src inputs Hpow H0 H1.
  destruct (run_returns Math_pow Math_log src inputs H0) as [res Hrun].
  destruct (run_fields _ _ _ _ _ Hrun) as (Hy & Hn & Hi & _).
  assert (Hpd : res_payback_disc res
                = st_payback_disc (simulation Math_pow Math_log src inputs)).
  { unfold runFinancialModel in Hrun.
    destruct (yr1 Math_pow Math_log src inputs); [|discriminate].
    now injection Hrun as <-. }
  assert (Hps : res_payback_simple res
                = st_payback_simple (simulation Math_pow Math_log src inputs)).
  { unfold runFinancialModel in Hrun.
    destruct (yr1 Math_pow Math_log src inputs); [|discriminate].
    now injection Hrun as <-. }
  assert (Ey : years Math_pow Math_log src inputs
               = [year_record Math_pow Math_log src inputs 0
                    (0 + DCF Math_pow Math_log src inputs 0)]).
  { rewrite years_records, (trips_le_0_one _ H0 H1). reflexivity. }
  assert (G00 : gtb 0 0 = false) by reflexivity.
  assert (Ecf : forall b, CF Math_pow Math_log src inputs 0 / Math_pow b 0
                          == CF Math_pow Math_log src inputs 0).
  { intro b. rewrite (Hpow b 0) by reflexivity. field. }
  exists res, (year_record Math_pow Math_log src inputs 0
                 (0 + DCF Math_pow Math_log src inputs 0)).
  split; [exact Hrun|]. split; [now rewrite Hy|]. split; [reflexivity|].
  split; [|split; [|split]].
  - rewrite Hn, NPV_fold, (trips_le_0_one _ H0 H1).
    cbn [count_from map fold_left year_record yr_CF].
    unfold DCF, discount_factor. rewrite Ecf. ring.
  - rewrite Hpd, payback_disc_find, Ey. cbn [find].
    unfold crosses_disc. cbn [year_record yr_y]. rewrite G00, andb_false_r.
    reflexivity.
  - rewrite Hps, payback_simple_find, Ey. cbn [running_cf find].
    unfold crosses_simple. cbn [fst year_record yr_y]. rewrite G00, andb_false_r.
    reflexivity.
  - rewrite Hi. apply IRR_none_iff.
    assert (T : forall mid, irr_npv_test Math_pow Math_log src inputs mid
                            == CF Math_pow Math_log src inputs 0).
    { intro mid. unfold irr_npv_test. rewrite Ey.
      cbn [fold_left year_record yr_CF yr_y]. rewrite Ecf. ring. }
    destruct (Qlt_le_dec 0 (CF Math_pow Math_log src inputs 0)) as [Hp|Hn'].
    + right. rewrite (irr_bracket_all_positive Math_pow Math_log src inputs).
      * vm_compute. discriminate.
      * intros mid _ _. now rewrite T.
    + left. rewrite (irr_bracket_none_positive Math_pow Math_log src inputs).
      * vm_compute. discriminate.
      * intros mid _ _. now rewrite T.
Qed.

Lemma pow_ref_zero : pow_zero_law pow_ref.
Proof.
  intros b e He. unfold pow_ref.
  assert (F : Qfloor e = 0%Z) by (rewrite (Qfloor_comp e 0 He); reflexivity).
  rewrite F, He. change (b ^ 0) with 1. change (inject_Z 0) with 0. ring.
Qed.

Lemma single_year_horizon_witness :
  exists res yr,
    runFinancialModel pow_ref log_ref App_jsx horizon_0_inputs = Some res
    /\ res_years res = [yr] /\ yr_y yr = 0
    /\ res_NPV res == yr_CF yr
    /\ res_payback_disc res = None
    /\ res_payback_simple res = None
    /\ res_IRR res = None.
Proof.
  apply (single_year_horizon pow_ref log_ref App_jsx horizon_0_inputs pow_ref_zero).
  - vm_compute. discriminate.
  - vm_compute. reflexivity.
Defined.

(** ** Warnings *)



(** ** The application around the engine *)

(** X17.  [handleBlur] never commits a value above [max]; with
    [min <= max] the committed value lies in [[min, max]] and is the typed
    value when that lies in the range, [min] below it and [max] above it;
    with [max < min] it is [max] whatever was typed. *)
Theorem handleBlur_clamps :
  forall min max v : Q,
    exists v',
      handleBlur min max (Some v) = Some v'
      /\ v' <= max
      /\ (min <= max ->
          min <= v'
          /\ (min <= v -> v <= max -> v' == v)
          /\ (v < min -> v' == min)
          /\ (max < v -> v' == max))
      /\ (max < min -> v' == max).
Proof.
  intros min max v. eexists. split; [reflexivity|].
  unfold Math_min, Math_max.
  pose proof (Q.max_spec min v) as S1.
  pose proof (Q.min_spec max (Qmax min v)) as S2.
  set (m := Qmax min v) in *. set (c := Qmin max m) in *.
  destruct S1 as [[H1 E1]|[H1 E1]]; destruct S2 as [[H2 E2]|[H2 E2]];
    (split; [lra|]); (split; [intro Hmm; repeat split; intros; lra|intro; lra]).
Qed.

Lemma merge_field_notin (l : list (key * Q)) :
  forall (prev : ModelInputs) (k : key),
    ~ In k (map fst l) ->
    field (fold_left (fun i kv => set_field i (fst kv) (snd kv)) l prev) k
    = field prev k.
Proof.
  induction l as [|[k0 v0] l IH]; intros prev k Hn; [reflexivity|].
  cbn [fold_left fst snd]. rewrite IH.
  - apply set_field_other. intro E. apply Hn. left. exact E.
  - intro Hin. apply Hn. right. exact Hin.
Qed.

Lemma merge_field_in (l : list (key * Q)) :
  forall (prev : ModelInputs) (k : key) (v : Q),
    NoDup (map fst l) -> In (k, v) l ->
    field (fold_left (fun i kv => set_field i (fst kv) (snd kv)) l prev) k = v.
Proof.
  induction l as [|[k0 v0] l IH]; intros prev k v Hnd Hin; [contradiction|].
  cbn [map fst] in Hnd. inversion Hnd as [|x xs Hx Hnd']; subst.
  cbn [fold_left fst snd]. destruct Hin as [E|Hin].
  - injection E as -> ->. rewrite merge_field_notin by exact Hx.
    apply set_field_same.
  - now apply IH.
Qed.

Lemma merge_gh (l : list (key * Q)) :
  forall prev : ModelInputs,
    gh_45Q_eligible (fold_left (fun i kv => set_field i (fst kv) (snd kv)) l prev)
    = gh_45Q_eligible prev.
Proof.
  induction l as [|[k0 v0] l IH]; intro prev; [reflexivity|].
  cbn [fold_left]. now rewrite IH.
Qed.

(** The three presets set the same keys, and the toggle in App.jsx only. *)
Lemma SCENARIOS_keys (src : source_file) (name : string) (sc : Scenario) :
  SCENARIOS src name = Some sc ->
  map fst (sc_fields sc) = scenario_keys
  /\ (sc_gh sc = None <-> src = part_000).
Proof.
  unfold SCENARIOS.
  destruct (String.eqb name "conservative");
    [|destruct (String.eqb name "base");
      [|destruct (String.eqb name "optimistic"); [|discriminate]]];
    intro H; injection H as <-; (split; [reflexivity|]);
    destruct src; cbn; split; congruence.
Qed.

Lemma scenario_keys_NoDup : NoDup scenario_keys.
Proof.
  unfold scenario_keys.
  repeat (constructor; [cbn; intuition discriminate|]). constructor.
Qed.

Lemma preset_field_in (src : source_file) (name : string) (sc : Scenario)
    (prev : ModelInputs) (k : key) (v : Q) :
  SCENARIOS src name = Some sc -> In (k, v) (sc_fields sc) ->
  field (merge_scenario prev sc) k = v.
Proof.
  intros Hsc Hin. destruct (SCENARIOS_keys _ _ _ Hsc) as [Hk _].
  unfold merge_scenario. cbn [field]. apply merge_field_in; [|exact Hin].
  rewrite Hk. apply scenario_keys_NoDup.
Qed.

Lemma preset_field_notin (src : source_file) (name : string) (sc : Scenario)
    (prev : ModelInputs) (k : key) :
  SCENARIOS src name = Some sc -> ~ In k scenario_keys ->
  field (merge_scenario prev sc) k = field prev k.
Proof.
  intros Hsc Hn. destruct (SCENARIOS_keys _ _ _ Hsc) as [Hk _].
  unfold merge_scenario. cbn [field]. apply merge_field_notin. now rewrite Hk.
Qed.

Lemma preset_key_value (src : source_file) (name : string) (sc : Scenario) (k : key) :
  SCENARIOS src name = Some sc -> In k scenario_keys ->
  exists v, In (k, v) (sc_fields sc).
Proof.
  intros Hsc Hin. destruct (SCENARIOS_keys _ _ _ Hsc) as [Hk _].
  rewrite <- Hk in Hin. apply in_map_iff in Hin.
  destruct Hin as ([k0 v] & E & Hin). cbn [fst] in E. subst k0. now exists v.
Qed.

(** X18.  [applyScenario] records the name; an unknown name leaves the
    inputs alone; a preset overwrites its eleven keys (and, in App.jsx, the
    toggle [gh_45Q_eligible]) and keeps every other input, so that a preset
    applied after another preset gives the inputs of applying it directly. *)
Theorem applyScenario_overwrites_preset_keys :
  forall (src : source_file) (name : string) (st : AppState),
    app_scenario (applyScenario src name st) = name
    /\ (SCENARIOS src name = None ->
        app_inputs (applyScenario src name st) = app_inputs st)
    /\ (forall sc, SCENARIOS src name = Some sc ->
          (forall k v, In (k, v) (sc_fields sc) ->
                       field (app_inputs (applyScenario src name st)) k = v)
          /\ (forall k, ~ In k scenario_keys ->
                        field (app_inputs (applyScenario src name st)) k
                        = field (app_inputs st) k)
          /\ gh_45Q_eligible (app_inputs (applyScenario src name st))
             = match sc_gh sc with
               | Some b => b
               | None => gh_45Q_eligible (app_inputs st)
               end
          /\ (forall (name' : string) (k : key),
                 SCENARIOS src name' <> None ->
                 field (app_inputs (applyScenario src name (applyScenario src name' st))) k
                 = field (app_inputs (applyScenario src name st)) k
                 /\ gh_45Q_eligible
                      (app_inputs (applyScenario src name (applyScenario src name' st)))
                    = gh_45Q_eligible (app_inputs (applyScenario src name st)))).
Proof.
  intros src name st. split; [reflexivity|]. split.
  { intro H. unfold applyScenario. cbn [app_inputs]. now rewrite H. }
  intros sc Hsc.
  destruct (SCENARIOS_keys _ _ _ Hsc) as [Hk Hg].
  assert (A3 : forall prev, gh_45Q_eligible (merge_scenario prev sc)
                            = match sc_gh sc with
                              | Some b => b
                              | None => gh_45Q_eligible prev
                              end).
  { intro prev. unfold merge_scenario. cbn [gh_45Q_eligible].
    destruct (sc_gh sc); [reflexivity|apply merge_gh]. }
  unfold applyScenario. cbn [app_inputs]. rewrite Hsc.
  split; [intros k v; now apply (preset_field_in src name)|].
  split; [intro k; now apply (preset_field_notin src name)|].
  split; [apply A3|].
  intros name' k Hn'.
  destruct (SCENARIOS src name') as [sc'|] eqn:Hsc'; [|congruence].
  destruct (SCENARIOS_keys _ _ _ Hsc') as [Hk' Hg'].
  split.
  - destruct (in_dec key_eq_dec k scenario_keys) as [Hin|Hout].
    + destruct (preset_key_value _ _ _ _ Hsc Hin) as [v Hv].
      now rewrite !(preset_field_in src name sc _ k v Hsc Hv).
    + rewrite !(preset_field_notin src name sc _ k Hsc Hout).
      now apply (preset_field_notin src name').
  - rewrite !A3. destruct (sc_gh sc) as [b|] eqn:G; [reflexivity|].
    unfold merge_scenario. cbn [gh_45Q_eligible].
    assert (G' : sc_gh sc' = None) by (apply Hg'; now apply Hg).
    rewrite G'. apply merge_gh.
Qed.

(** X19.  An edit of an input that no preset sets and the choice of a
    preset commute on the inputs, while an edit of one of the eleven preset
    keys is lost when a preset is chosen after it; the scenario name is
    that of the later of the two actions, ["custom"] for an edit. *)
Theorem edits_and_presets :
  forall (src : source_file) (name : string) (sc : Scenario) (k : key) (v : Q)
         (st : AppState),
    SCENARIOS src name = Some sc ->
    (~ In k scenario_keys ->
     forall k', field (app_inputs (applyScenario src name (set k v st))) k'
                = field (app_inputs (set k v (applyScenario src name st))) k')
    /\ (In k scenario_keys ->
        forall k', field (app_inputs (applyScenario src name (set k v st))) k'
                   = field (app_inputs (applyScenario src name st)) k')
    /\ gh_45Q_eligible (app_inputs (applyScenario src name (set k v st)))
       = gh_45Q_eligible (app_inputs (set k v (applyScenario src name st)))
    /\ app_scenario (set k v (applyScenario src name st)) = "custom"%string
    /\ app_scenario (applyScenario src name (set k v st)) = name.
Proof.
  intros src name sc k v st Hsc.
  unfold applyScenario, set. cbn [app_inputs app_scenario]. rewrite Hsc.
  split; [|split; [|split; [|split; reflexivity]]].
  - intros Hk k'.
    destruct (in_dec key_eq_dec k' scenario_keys) as [Hin|Hout].
    + destruct (preset_key_value _ _ _ _ Hsc Hin) as [v' Hv'].
      rewrite (preset_field_in src name sc _ k' v' Hsc Hv').
      rewrite set_field_other by (intros ->; contradiction).
      now rewrite (preset_field_in src name sc _ k' v' Hsc Hv').
    + rewrite (preset_field_notin src name sc _ k' Hsc Hout).
      destruct (key_eq_dec k k') as [->|Hne].
      * now rewrite !set_field_same.
      * rewrite !set_field_other by exact Hne.
        now rewrite (preset_field_notin src name sc _ k' Hsc Hout).
  - intros Hk k'.
    destruct (in_dec key_eq_dec k' scenario_keys) as [Hin|Hout].
    + destruct (preset_key_value _ _ _ _ Hsc Hin) as [v' Hv'].
      now rewrite !(preset_field_in src name sc _ k' v' Hsc Hv').
    + rewrite !(preset_field_notin src name sc _ k' Hsc Hout).
      apply set_field_other. intros ->. contradiction.
  - unfold merge_scenario. cbn [gh_45Q_eligible set_field].
    destruct (sc_gh sc); [reflexivity|]. now rewrite !merge_gh.
Qed.

Lemma edits_and_presets_witness :
  (forall k', field (app_inputs (applyScenario App_jsx "optimistic"
                                   (set T_project 5 (mkApp "base" default_inputs)))) k'
              = field (app_inputs (set T_project 5
                                     (applyScenario App_jsx "optimistic"
                                        (mkApp "base" default_inputs)))) k')
  /\ (forall k', field (app_inputs (applyScenario App_jsx "optimistic"
                                      (set N_units 7 (mkApp "base" default_inputs)))) k'
                 = field (app_inputs (applyScenario App_jsx "optimistic"
                                        (mkApp "base" default_inputs))) k').
Proof.
  split.
  - refine (proj1 (edits_and_presets App_jsx "optimistic" _ T_project 5
                     (mkApp "base" default_inputs) eq_refl) _).
    cbn. intuition discriminate.
  - refine (proj1 (proj2 (edits_and_presets App_jsx "optimistic" _ N_units 7
                            (mkApp "base" default_inputs) eq_refl)) _).
    cbn. tauto.
Defined.



Lemma mapi_from_length {A B : Type} (f : A -> nat -> B) (l : list A) :
  forall i, List.length (mapi_from i f l) = List.length l.
Proof.
  induction l as [|c l IH]; intro i; cbn [mapi_from List.length]; [reflexivity|].
  now rewrite IH.
Qed.

Lemma mapi_from_nth {A B : Type} (f : A -> nat -> B) (l : list A) :
  forall i j, nth_error (mapi_from i f l) j
              = option_map (fun c => f c (i + j)%nat) (nth_error l j).
Proof.
  induction l as [|c l IH]; intros i j; destruct j as [|j]; cbn [mapi_from nth_error option_map];
    try reflexivity.
  - now rewrite Nat.add_0_r.
  - rewrite IH. now rewrite Nat.add_succ_r.
Qed.

Lemma firstn_snoc_nth {A : Type} (l : list A) :
  forall (i : nat) (c : A),
    nth_error l i = Some c -> firstn (S i) l = firstn i l ++ [c].
Proof.
  induction l as [|a l IH]; intros i c H; destruct i as [|i]; try discriminate.
  - injection H as ->. reflexivity.
  - cbn [nth_error] in H. change (firstn (S (S i)) (a :: l)) with (a :: firstn (S i) l).
    rewrite (IH i c H). reflexivity.
Qed.

Lemma learningData_nth (l : list Q) (i : nat) (p : LearningPoint) :
  nth_error (learningData l) i = Some p ->
  exists c, nth_error l i = Some c
            /\ p = {| lp_unit := inject_Z (Z.of_nat i) + 1;
                      lp_capex := c;
                      lp_cumulative := fold_left (fun s v => s + v) (firstn (S i) l) 0 |}.
Proof.
  unfold learningData. rewrite mapi_from_nth.
  destruct (nth_error l i) as [c|]; [|discriminate].
  unfold option_map. intro H. injection H as <-.
  exists c. split; [reflexivity|].
  replace (S i) with (0 + i + 1)%nat by lia. reflexivity.
Qed.

(** X21.  The learning curve has one point for each unit, numbered from
    1, with the CAPEX of the unit; the cumulative value of a point is that
    of the point before it plus its own CAPEX (the CAPEX alone at the first
    point), and at the last point it is the fleet total of the engine. *)
Theorem learning_curve_accumulates :
  forall (Math_pow : Q -> Q -> Q) (Math_log : Q -> Q) (inputs : ModelInputs),
    List.length (learningData (unit_capex Math_pow Math_log inputs))
    = List.length (unit_capex Math_pow Math_log inputs)
    /\ (forall i p,
           nth_error (learningData (unit_capex Math_pow Math_log inputs)) i = Some p ->
           lp_unit p == inject_Z (Z.of_nat i) + 1
           /\ nth_error (unit_capex Math_pow Math_log inputs) i = Some (lp_capex p)
           /\ (i = 0%nat -> lp_cumulative p == lp_capex p)
           /\ (forall q,
                  nth_error (learningData (unit_capex Math_pow Math_log inputs)) (S i)
                  = Some q ->
                  lp_cumulative q == lp_cumulative p + lp_capex q)
           /\ (S i = List.length (unit_capex Math_pow Math_log inputs) ->
               lp_cumulative p = capex_fleet_total Math_pow Math_log inputs)).
Proof.
  intros Math_pow Math_log inputs.
  rewrite capex_fleet_total_sum.
  generalize (unit_capex Math_pow Math_log inputs). intro l.
  split; [unfold learningData; apply mapi_from_length|].
  intros i p Hp. destruct (learningData_nth l i p Hp) as (c & Ec & ->).
  unfold lp_unit, lp_capex, lp_cumulative.
  split; [reflexivity|]. split; [exact Ec|]. split; [|split].
  - intros ->. destruct l as [|a l]; [discriminate|].
    injection Ec as ->. unfold firstn, fold_left. ring.
  - intros q Hq. destruct (learningData_nth l (S i) q Hq) as (d & Ed & ->).
    rewrite (firstn_snoc_nth l (S i) d Ed), fold_left_app.
    unfold fold_left at 1. reflexivity.
  - intro Hlast. rewrite firstn_all2 by lia. reflexivity.
Qed.

(** ** A learning rate of 1 *)

Lemma sum_list_const (c : Q) (l : list Q) :
  Forall (fun x => x == c) l ->
  sum_list l == inject_Z (Z.of_nat (List.length l)) * c.
Proof.
  induction l as [|x l IH]; intro H.
  - unfold sum_list. cbn [fold_left List.length Z.of_nat]. inj_consts. ring.
  - inversion H as [|x' l' Hx Hl]; subst.
    assert (S1 : sum_list [x] == x) by (unfold sum_list; cbn [fold_left]; ring).
    assert (S2 : sum_list (x :: l) == sum_list [x] + sum_list l)
      by apply (sum_list_app [x] l).
    replace (Z.of_nat (List.length (x :: l)))
      with (1 + Z.of_nat (List.length l))%Z by (cbn [List.length]; lia).
    rewrite S2, S1, (IH Hl), Hx, inject_Z_plus. inj_consts. ring.
Qed.

Lemma log_ref_one : log_one_law log_ref.
Proof.
  intros x Hx. unfold log_ref. cbv zeta.
  assert (E : (x - 1) / (x + 1) == 0) by (rewrite Hx; reflexivity).
  rewrite E. ring.
Qed.

(** X22.  With a learning rate of 1 the curve is flat: every unit of the
    fleet costs [CAPEX_unit1], and the fleet total is the number of units
    times [CAPEX_unit1]. *)
Theorem no_learning_flat_curve :
  forall (Math_pow : Q -> Q -> Q) (Math_log : Q -> Q) (inputs : ModelInputs),
    pow_zero_law Math_pow ->
    log_one_law Math_log ->
    field inputs LR == 1 ->
    Forall (fun c => c == CAPEX_unit1 inputs) (unit_capex Math_pow Math_log inputs)
    /\ capex_fleet_total Math_pow Math_log inputs
       == inject_Z (Z.of_nat (List.length (unit_capex Math_pow Math_log inputs)))
          * CAPEX_unit1 inputs.
Proof.
  intros Math_pow Math_log inputs Hpow Hlog HLR.
  assert (F : Forall (fun c => c == CAPEX_unit1 inputs)
                     (unit_capex Math_pow Math_log inputs)).
  { rewrite unit_capex_map. apply Forall_forall. intros c Hc.
    apply in_map_iff in Hc. destruct Hc as (n & <- & _).
    assert (E : lr_exp Math_log inputs == 0).
    { unfold lr_exp. rewrite (Hlog _ HLR). unfold Qdiv. ring. }
    rewrite (Hpow n _ E). ring. }
  split; [exact F|].
  rewrite capex_fleet_total_sum. now apply sum_list_const.
Qed.

Lemma no_learning_flat_curve_witness :
  Forall (fun c => c == CAPEX_unit1 flat_curve_inputs)
         (unit_capex pow_ref log_ref flat_curve_inputs)
  /\ capex_fleet_total pow_ref log_ref flat_curve_inputs
     == inject_Z (Z.of_nat (List.length (unit_capex pow_ref log_ref flat_curve_inputs)))
        * CAPEX_unit1 flat_curve_inputs.
Proof.
  apply (no_learning_flat_curve pow_ref log_ref flat_curve_inputs
           pow_ref_zero log_ref_one).
  vm_compute. reflexivity.
Defined.
